(** * FilesystemEventMonitor: an inotify watcher for one file and its directory

    A shallow embedding of [example/filesystem_event_monitor.hpp].

    - C++ [int], [uint32_t] and [std::size_t] values are integers of [Z]; the
      wrap-around of [std::size_t] arithmetic (64 bits) is written out.
    - The read buffer ([std::span<char>]) is a [list byte]; reading outside of
      it is undefined behaviour and is reported as such.
    - The kernel and the output streams are external: every system call and
      every line written to [std::cout] / [std::cerr] is appended to a trace,
      and the values that [inotify_init1] and [inotify_add_watch] return are
      taken, in order, from a script carried by the state. *)

From Stdlib Require Import ZArith List Bool String Lia.
From Stdlib Require Import Strings.Byte.
Import ListNotations.

Local Open Scope Z_scope.

(** ** Constants of <sys/inotify.h> (Linux UAPI) *)

Definition IN_ACCESS        : Z := 0x001.
Definition IN_MODIFY        : Z := 0x002.
Definition IN_ATTRIB        : Z := 0x004.
Definition IN_CLOSE_WRITE   : Z := 0x008.
Definition IN_CLOSE_NOWRITE : Z := 0x010.
Definition IN_OPEN          : Z := 0x020.
Definition IN_MOVED_FROM    : Z := 0x040.
Definition IN_MOVED_TO      : Z := 0x080.
Definition IN_CREATE        : Z := 0x100.
Definition IN_DELETE        : Z := 0x200.
Definition IN_DELETE_SELF   : Z := 0x400.
Definition IN_MOVE_SELF     : Z := 0x800.
Definition IN_ALL_EVENTS    : Z := 0xfff.

(** The twelve event kinds that [getEventString] names, in the order of the
    contract: access, attribute-change, close-after-write, close-without-write,
    create, delete, delete-self, modify, move-self, moved-from, moved-to, open. *)
Definition known_event_masks : list Z :=
  [ IN_ACCESS; IN_ATTRIB; IN_CLOSE_WRITE; IN_CLOSE_NOWRITE; IN_CREATE;
    IN_DELETE; IN_DELETE_SELF; IN_MODIFY; IN_MOVE_SELF; IN_MOVED_FROM;
    IN_MOVED_TO; IN_OPEN ].

(** ** Machine integers *)

(** [std::size_t] on LP64. *)
Definition size_max : Z := 2 ^ 64.
Definition size_add (a b : Z) : Z := (a + b) mod size_max.

(** Conversion of a [uint32_t] to [int] (the argument of [getEventString]). *)
Definition int_of_uint32 (u : Z) : Z :=
  if u <? 2 ^ 31 then u else u - 2 ^ 32.

(** ** Bytes *)

Definition Z_of_byte (b : byte) : Z := Z.of_N (Byte.to_N b).

(** Four bytes of a little-endian host, as an unsigned 32-bit value. *)
Definition le_uint32 (b0 b1 b2 b3 : byte) : Z :=
  Z_of_byte b0 + 2 ^ 8 * Z_of_byte b1 + 2 ^ 16 * Z_of_byte b2
  + 2 ^ 24 * Z_of_byte b3.

Definition le_int32 (b0 b1 b2 b3 : byte) : Z :=
  int_of_uint32 (le_uint32 b0 b1 b2 b3).

Fixpoint bytes_eqb (a b : list byte) : bool :=
  match a, b with
  | [], [] => true
  | x :: a', y :: b' => Byte.eqb x y && bytes_eqb a' b'
  | _, _ => false
  end.

(** ** getEventString *)

Definition getEventString (WatchDescriptor : Z) : string :=
  if WatchDescriptor =? IN_ACCESS then
    "IN_ACCESS - File was accessed."
  else if WatchDescriptor =? IN_ATTRIB then
    "IN_ATTRIB - Metadata changed."
  else if WatchDescriptor =? IN_CLOSE_WRITE then
    "IN_CLOSE_WRITE - File opened for writing was closed."
  else if WatchDescriptor =? IN_CLOSE_NOWRITE then
    "IN_CLOSE_NOWRITE - File or directory not opened for writing was closed."
  else if WatchDescriptor =? IN_CREATE then
    "IN_CREATE - File/directory created in watched directory."
  else if WatchDescriptor =? IN_DELETE then
    "IN_DELETE - File/directory deleted from watched directory."
  else if WatchDescriptor =? IN_DELETE_SELF then
    "IN_DELETE_SELF - Watched file/directory was itself deleted."
  else if WatchDescriptor =? IN_MODIFY then
    "IN_MODIFY - File was modified."
  else if WatchDescriptor =? IN_MOVE_SELF then
    "IN_MOVE_SELF -  Watched file/directory was itself moved."
  else if WatchDescriptor =? IN_MOVED_FROM then
    "IN_MOVED_FROM - Generated for the directory containing the old filename when a file is renamed."
  else if WatchDescriptor =? IN_MOVED_TO then
    "IN_MOVED_TO - Generated for the directory containing the new filename when a file is renamed."
  else if WatchDescriptor =? IN_OPEN then
    "IN_OPEN - File or directory was opened."
  else
    "".

(** ** The outside world *)

(** The two paths handed to [inotify_add_watch]:
    [pathname.parent_path()] and [pathname] itself. *)
Inductive Path : Type :=
| ParentDirectory
| TargetFile.

(** The lines the class writes, one constructor per output statement. *)
Inductive Line : Type :=
| add_watch_failed_for_directory
| add_watcher_on_directory
| remove_watcher_on_directory
| add_watch_failed_for_file
| add_watcher_on_file
| remove_watcher_on_file
| directory_event (filename : list byte) (description : string)
| file_event (description : string)
| callback_error.

Inductive Effect : Type :=
| inotify_init1 (ret : Z)
| inotify_add_watch (fd : Z) (path : Path) (mask : Z) (ret : Z)
| inotify_rm_watch (fd : Z) (wd : Z)
| close (fd : Z)
| assign (fd : Z)
| async_read_some
| cout (line : Line)
| cerr (line : Line).

(** ** The object *)

(** The data members of the class, followed by the world it runs in:
    [trace] is everything done so far, oldest first, and [kernel] holds the
    values the coming [inotify_init1] / [inotify_add_watch] calls return
    (a call made after the script has run out fails with -1).
    [inotifyConn] is [None] while the optional is empty, [Some None] once the
    descriptor object exists and [Some (Some fd)] once [fd] is assigned.
    Of [pathname] only [pathname.filename()] is ever compared. *)
Record State : Type := mkState {
  inotifyConn : option (option Z);
  inotifyFd : Z;
  dirWatchDesc : Z;
  fileWatchDesc : Z;
  filename : list byte;
  trace : list Effect;
  kernel : list Z
}.

Definition set_inotifyConn (c : option (option Z)) (s : State) : State :=
  mkState c (inotifyFd s) (dirWatchDesc s) (fileWatchDesc s) (filename s)
          (trace s) (kernel s).

Definition set_inotifyFd (fd : Z) (s : State) : State :=
  mkState (inotifyConn s) fd (dirWatchDesc s) (fileWatchDesc s) (filename s)
          (trace s) (kernel s).

Definition set_dirWatchDesc (wd : Z) (s : State) : State :=
  mkState (inotifyConn s) (inotifyFd s) wd (fileWatchDesc s) (filename s)
          (trace s) (kernel s).

Definition set_fileWatchDesc (wd : Z) (s : State) : State :=
  mkState (inotifyConn s) (inotifyFd s) (dirWatchDesc s) wd (filename s)
          (trace s) (kernel s).

Definition emit (e : Effect) (s : State) : State :=
  mkState (inotifyConn s) (inotifyFd s) (dirWatchDesc s) (fileWatchDesc s)
          (filename s) (trace s ++ [e]) (kernel s).

(** The value the kernel returns to the next call, and the state once the
    script has moved on. *)
Definition kernel_return (s : State) : Z * State :=
  match kernel s with
  | [] => (-1, s)
  | r :: rest =>
      (r, mkState (inotifyConn s) (inotifyFd s) (dirWatchDesc s)
                  (fileWatchDesc s) (filename s) (trace s) rest)
  end.

(** ** Watch registration *)

Definition addWatchOnDir (s : State) : bool * State :=
  let '(ret, s) := kernel_return s in
  let s := emit (inotify_add_watch (inotifyFd s) ParentDirectory IN_ALL_EVENTS ret) s in
  let s := set_dirWatchDesc ret s in
  if dirWatchDesc s =? -1 then
    (false, emit (cerr add_watch_failed_for_directory) s)
  else
    (true, emit (cout add_watcher_on_directory) s).

Definition rmWatchOnDir (s : State) : State :=
  if negb (dirWatchDesc s =? -1) then
    let s := emit (cout remove_watcher_on_directory) s in
    let s := emit (inotify_rm_watch (inotifyFd s) (dirWatchDesc s)) s in
    set_dirWatchDesc (-1) s
  else s.

Definition addWatchOnFile (s : State) : bool * State :=
  let '(ret, s) := kernel_return s in
  let s := emit (inotify_add_watch (inotifyFd s) TargetFile IN_ALL_EVENTS ret) s in
  let s := set_fileWatchDesc ret s in
  if fileWatchDesc s =? -1 then
    (false, emit (cerr add_watch_failed_for_file) s)
  else
    (true, emit (cout add_watcher_on_file) s).

Definition rmWatchOnFile (s : State) : State :=
  if negb (fileWatchDesc s =? -1) then
    let s := emit (cout remove_watcher_on_file) s in
    let s := emit (inotify_rm_watch (inotifyFd s) (fileWatchDesc s)) s in
    set_fileWatchDesc (-1) s
  else s.

(** ** The read loop *)

(** [monitorFilesystemEvent] posts one asynchronous read; its completion
    handler is [monitorFilesystemEvent_handler] below. *)
Definition monitorFilesystemEvent (s : State) : State :=
  emit async_read_some s.

(** ** Construction and destruction *)

(** The object before the constructor body runs (the default member
    initialisers), for the file name of [pathname] and a kernel script. *)
Definition initial (name : list byte) (script : list Z) : State :=
  mkState None (-1) (-1) (-1) name [] script.

Definition constructor (name : list byte) (script : list Z) : State :=
  let s := initial name script in
  let s := set_inotifyConn (Some None) s in
  match inotifyConn s with
  | None => s
  | Some _ =>
      let '(fd, s) := kernel_return s in
      let s := set_inotifyFd fd (emit (inotify_init1 fd) s) in
      if inotifyFd s =? -1 then s
      else
        let '(ok, s) := addWatchOnDir s in
        if negb ok then s
        else
          let '(_, s) := addWatchOnFile s in
          let s := set_inotifyConn (Some (Some (inotifyFd s)))
                     (emit (assign (inotifyFd s)) s) in
          monitorFilesystemEvent s
  end.

Definition destructor (s : State) : State :=
  let s := rmWatchOnDir s in
  let s := rmWatchOnFile s in
  emit (close (inotifyFd s)) s.

(** ** Decoding the read buffer *)

(** [struct inotify_event] without its flexible [name] member:
    [int wd; uint32_t mask; uint32_t cookie; uint32_t len]. *)
Record inotify_event : Type := mkEvent {
  wd : Z;
  mask : Z;
  cookie : Z;
  len : Z
}.

(** [sizeof(inotify_event)]. *)
Definition iEventSize : Z := 16.

(** [std::memcpy(&event, &readBuffer[index], iEventSize)];
    [None] when the sixteen bytes are not all inside the buffer. *)
Definition memcpy_event (readBuffer : list byte) (index : Z) : option inotify_event :=
  match firstn 16 (skipn (Z.to_nat index) readBuffer) with
  | [w0; w1; w2; w3; m0; m1; m2; m3; c0; c1; c2; c3; l0; l1; l2; l3] =>
      Some (mkEvent (le_int32 w0 w1 w2 w3) (le_uint32 m0 m1 m2 m3)
                    (le_uint32 c0 c1 c2 c3) (le_uint32 l0 l1 l2 l3))
  | _ => None
  end.

(** The characters of a C string: everything before the first NUL;
    [None] when the array ends before a NUL is met. *)
Fixpoint c_str (p : list byte) : option (list byte) :=
  match p with
  | [] => None
  | c :: p' =>
      if Byte.eqb c x00 then Some []
      else match c_str p' with
           | Some str => Some (c :: str)
           | None => None
           end
  end.

(** [std::string filename(&readBuffer[pos])]. *)
Definition string_at (readBuffer : list byte) (pos : Z) : option (list byte) :=
  c_str (skipn (Z.to_nat pos) readBuffer).

(** What one pass through the body of the [while] loop of [readEvents] ends
    in: the next pass at a new index, a [return], or undefined behaviour. *)
Inductive Control : Type :=
| Continue (index : Z) (s : State)
| Return (s : State)
| Undefined.

(** The body of the [while] loop. [filename != pathname.filename()] compares
    two paths; for the single path components that the kernel writes into a
    record that is the comparison of their bytes, which is what is modelled. *)
Definition readEvents_body (readBuffer : list byte) (bytesTransferred : Z)
    (index : Z) (s : State) : Control :=
  match memcpy_event readBuffer index with
  | None => Undefined
  | Some event =>
      let next := size_add index (size_add iEventSize (len event)) in
      if wd event =? dirWatchDesc s then
        if (len event =? 0)
           || (size_add (size_add index iEventSize) (len event) >? bytesTransferred)
        then Continue next s
        else
          match string_at readBuffer (size_add index iEventSize) with
          | None => Undefined
          | Some name =>
              if negb (bytes_eqb name (filename s)) then Continue next s
              else
                let s := emit (cout (directory_event name
                                 (getEventString (int_of_uint32 (mask event))))) s in
                if mask event =? IN_CREATE then
                  let s := rmWatchOnFile s in
                  let '(ok, s) := addWatchOnFile s in
                  if negb ok then Return s else Continue next s
                else if (mask event =? IN_DELETE) || (mask event =? IN_MOVED_TO) then
                  Continue next (rmWatchOnFile s)
                else Continue next s
          end
      else if wd event =? fileWatchDesc s then
        Continue next
          (emit (cout (file_event (getEventString (int_of_uint32 (mask event))))) s)
      else Continue next s
  end.

Inductive Result : Type :=
| Returns (s : State)
| UndefinedBehaviour
| OutOfFuel.

(** The [while] loop, with a bound on the number of passes. *)
Fixpoint readEvents_loop (fuel : nat) (readBuffer : list byte)
    (bytesTransferred : Z) (index : Z) (s : State) : Result :=
  match fuel with
  | O => OutOfFuel
  | S fuel' =>
      if size_add index iEventSize <=? bytesTransferred then
        match readEvents_body readBuffer bytesTransferred index s with
        | Continue index' s' =>
            readEvents_loop fuel' readBuffer bytesTransferred index' s'
        | Return s' => Returns s'
        | Undefined => UndefinedBehaviour
        end
      else Returns s
  end.

(** Every pass that goes on to the next one has read a whole header inside
    the buffer and moves the index forward by at least its sixteen bytes, so
    one more pass than the buffer has bytes is never used up
    (see [readEvents_loop_enough_fuel]). *)
Definition readEvents (readBuffer : list byte) (bytesTransferred : Z)
    (s : State) : Result :=
  readEvents_loop (S (List.length readBuffer)) readBuffer bytesTransferred 0 s.

(** The completion handler of the read that [monitorFilesystemEvent] posts;
    [ec] says whether the read failed. *)
Definition monitorFilesystemEvent_handler (ec : bool) (readBuffer : list byte)
    (bytesTransferred : Z) (s : State) : Result :=
  if ec then Returns (emit (cerr callback_error) s)
  else
    match readEvents readBuffer bytesTransferred s with
    | Returns s' => Returns (monitorFilesystemEvent s')
    | r => r
    end.

(** ** Observations on a trace *)

(** A watch descriptor other than the sentinel -1. *)
Definition live (wd : Z) : bool := negb (wd =? -1).

(** What a watch slot holds, as a list: its handle when it is live. *)
Definition handles (wd : Z) : list Z := if live wd then [wd] else [].

(** The descriptors handed to [inotify_rm_watch], in call order. *)
Fixpoint rm_watch_calls (tr : list Effect) : list Z :=
  match tr with
  | [] => []
  | inotify_rm_watch _ w :: tr' => w :: rm_watch_calls tr'
  | _ :: tr' => rm_watch_calls tr'
  end.

(** The number of reads posted. *)
Fixpoint reads_posted (tr : list Effect) : nat :=
  match tr with
  | [] => O
  | async_read_some :: tr' => S (reads_posted tr')
  | _ :: tr' => reads_posted tr'
  end.

(** The lines written to [std::cout] for events (the dispatched events). *)
Fixpoint dispatched (tr : list Effect) : list Line :=
  match tr with
  | [] => []
  | cout (directory_event n d) :: tr' => directory_event n d :: dispatched tr'
  | cout (file_event d) :: tr' => file_event d :: dispatched tr'
  | _ :: tr' => dispatched tr'
  end.

Definition Path_eqb (p q : Path) : bool :=
  match p, q with
  | ParentDirectory, ParentDirectory => true
  | TargetFile, TargetFile => true
  | _, _ => false
  end.

(** The registrations on path [p] that the calls of a trace leave
    outstanding: a successful [inotify_add_watch] on [p] adds the descriptor
    it returned, an [inotify_rm_watch] releases the descriptor it is given. *)
Definition track (p : Path) (ws : list Z) (e : Effect) : list Z :=
  match e with
  | inotify_add_watch _ q _ ret =>
      if Path_eqb p q && live ret then ws ++ [ret] else ws
  | inotify_rm_watch _ w => filter (fun x => negb (x =? w)) ws
  | _ => ws
  end.

Definition watches (p : Path) (tr : list Effect) : list Z :=
  fold_left (track p) tr [].

(** Invariant I1 on a state: the trace leaves at most one directory watch
    outstanding, and the outstanding file watches are exactly the handle
    held in [fileWatchDesc]. *)
Definition tracked (s : State) : Prop :=
  (List.length (watches ParentDirectory (trace s)) <= 1)%nat /\
  watches TargetFile (trace s) = handles (fileWatchDesc s).

(** ** States and results that the statements name *)

(** The calls and lines by which [rmWatchOnFile] removes the file watch of
    [s], none when there is no file watch. *)
Definition file_watch_removal (s : State) : list Effect :=
  if live (fileWatchDesc s)
  then [cout remove_watcher_on_file;
        inotify_rm_watch (inotifyFd s) (fileWatchDesc s)]
  else [].

(** The state a create record for the target leaves: the event is written,
    the old file watch goes, a new one is asked for. *)
Definition rewatched (s : State) : State :=
  snd (addWatchOnFile
         (rmWatchOnFile
            (emit (cout (directory_event (filename s) (getEventString IN_CREATE))) s))).

(** The loop has come to an end by itself, not by the bound on its passes. *)
Definition finished (r : Result) : Prop :=
  match r with
  | OutOfFuel => False
  | _ => True
  end.

(** ** The specification's view of a batch (spec 4.1, 4.3, 4.4) *)

(** A complete record: its header and the [len] bytes of its name field. *)
Record RawRecord : Type := mkRecord {
  header : inotify_event;
  name_field : list byte
}.

Definition name_field_at (readBuffer : list byte) (index : Z) (n : Z) : list byte :=
  firstn (Z.to_nat n) (skipn (Z.to_nat (index + iEventSize)) readBuffer).

(** The name of spec 4.1: the null-terminated string, truncated at the end
    of the field. *)
Fixpoint until_nul (field : list byte) : list byte :=
  match field with
  | [] => []
  | c :: field' => if Byte.eqb c x00 then [] else c :: until_nul field'
  end.

Definition record_name (r : RawRecord) : option (list byte) :=
  if len (header r) =? 0 then None else Some (until_nul (name_field r)).

(** The buffer holds the complete records [rs] one after the other from
    index [i] up to index [j]; a name field that is not empty holds its
    terminating NUL, as the kernel writes it. *)
Fixpoint records_at (readBuffer : list byte) (i : Z) (rs : list RawRecord)
    (j : Z) : Prop :=
  match rs with
  | [] => i = j
  | r :: rs' =>
      memcpy_event readBuffer i = Some (header r) /\
      name_field r = name_field_at readBuffer i (len (header r)) /\
      i + iEventSize + len (header r) <= Z.of_nat (List.length readBuffer) /\
      (len (header r) = 0 \/ In x00 (name_field r)) /\
      records_at readBuffer (i + iEventSize + len (header r)) rs' j
  end.

Inductive HandleKind : Type :=
| Directory
| File
| Unknown.

(** [classify] of spec 4.2. *)
Definition classify (s : State) (handle : Z) : HandleKind :=
  if handle =? dirWatchDesc s then Directory
  else if handle =? fileWatchDesc s then File
  else Unknown.

(** Steps 2 to 4 of spec 4.4 with the transition table of spec 4.3, for one
    record; the boolean is false when the mutation failed fatally. *)
Definition spec_step (r : RawRecord) (s : State) : bool * State :=
  let description := getEventString (int_of_uint32 (mask (header r))) in
  match classify s (wd (header r)) with
  | Unknown => (true, s)
  | File => (true, emit (cout (file_event description)) s)
  | Directory =>
      match record_name r with
      | None => (true, s)
      | Some name =>
          if bytes_eqb name (filename s) then
            let s := emit (cout (directory_event name description)) s in
            if mask (header r) =? IN_CREATE then
              addWatchOnFile (rmWatchOnFile s)
            else if (mask (header r) =? IN_DELETE)
                    || (mask (header r) =? IN_MOVED_TO) then
              (true, rmWatchOnFile s)
            else (true, s)
          else (true, s)
      end
  end.

(** The records of a batch in order, up to a fatal failure. *)
Fixpoint spec_run (rs : list RawRecord) (s : State) : bool * State :=
  match rs with
  | [] => (true, s)
  | r :: rs' =>
      let '(ok, s') := spec_step r s in
      if ok then spec_run rs' s' else (false, s')
  end.

Definition spec_process (rs : list RawRecord) (s : State) : State :=
  snd (spec_run rs s).

(** What follows the complete records, between index [j] and the valid
    length, is a truncated fragment: less than a header, or a header whose
    name field does not fit. *)
Definition truncated_fragment (readBuffer : list byte) (j bytesTransferred : Z) : Prop :=
  bytesTransferred - j < iEventSize \/
  exists ev, memcpy_event readBuffer j = Some ev /\
             j + iEventSize + len ev > bytesTransferred.

(** A truncated fragment that does not carry the file watch's handle in the
    state [s] in which it is met. *)
Definition unwatched_fragment (readBuffer : list byte) (j bytesTransferred : Z)
    (s : State) : Prop :=
  bytesTransferred - j < iEventSize \/
  exists ev, memcpy_event readBuffer j = Some ev /\
             j + iEventSize + len ev > bytesTransferred /\
             (wd ev = dirWatchDesc s \/ wd ev <> fileWatchDesc s).

(** ** Buffers for the examples *)

Definition byte_of_Z (z : Z) : byte :=
  match Byte.of_N (Z.to_N (z mod 256)) with
  | Some b => b
  | None => x00
  end.

(** The four bytes of a 32-bit value on a little-endian host. *)
Definition uint32_bytes (z : Z) : list byte :=
  [ byte_of_Z z; byte_of_Z (z / 2 ^ 8); byte_of_Z (z / 2 ^ 16);
    byte_of_Z (z / 2 ^ 24) ].

(** One record as the kernel lays it out. *)
Definition record_bytes (wd mask cookie : Z) (name : list byte) : list byte :=
  uint32_bytes wd ++ uint32_bytes mask ++ uint32_bytes cookie
  ++ uint32_bytes (Z.of_nat (List.length name)) ++ name.

(** "f.txt" and "other.txt", with the terminating NUL and the padding of
    their name fields. *)
Definition f_txt : list byte := list_byte_of_string "f.txt".
Definition f_txt_field : list byte := f_txt ++ repeat x00 11.
Definition other_txt_field : list byte :=
  list_byte_of_string "other.txt" ++ repeat x00 7.

(** A monitor of "f.txt" as its constructor leaves it when the kernel opens
    channel 3, registers the directory as watch 1 and answers [fwd] for the
    file (-1 when the file does not exist); [later] is what the kernel will
    answer from then on. *)
Definition running (fwd : Z) (later : list Z) : State :=
  constructor f_txt (3 :: 1 :: fwd :: later).

(** A batch of three records for the examples: "f.txt" created in the
    directory, "f.txt" deleted from it, and a modification seen by file
    watch 2. *)
Definition create_delete_modify : list byte :=
  record_bytes 1 IN_CREATE 0 f_txt_field
  ++ record_bytes 1 IN_DELETE 0 f_txt_field
  ++ record_bytes 2 IN_MODIFY 0 [].

(** A create record whose four-byte name field "f.tx" holds no NUL; the two
    bytes behind it, "t" and NUL, are left over from an earlier read and lie
    past the twenty valid bytes. *)
Definition unterminated_name : list byte :=
  record_bytes 1 IN_CREATE 0 (list_byte_of_string "f.tx")
  ++ list_byte_of_string "t" ++ [x00].

(** A header carrying file watch 2 that announces a sixteen-byte name, of
    which the read delivered nothing. *)
Definition file_scoped_fragment : list byte :=
  uint32_bytes 2 ++ uint32_bytes IN_MODIFY ++ uint32_bytes 0 ++ uint32_bytes 16.

(** A batch for the examples: "f.txt" created in the directory, then a
    modification seen by file watch 5, then three bytes of a record that the
    read cut off. *)
Definition create_modify_and_three_bytes : list byte :=
  record_bytes 1 IN_CREATE 0 f_txt_field
  ++ record_bytes 5 IN_MODIFY 0 []
  ++ [x01; x00; x00].

Definition create_modify_records : list RawRecord :=
  [ mkRecord (mkEvent 1 IN_CREATE 0 16) f_txt_field;
    mkRecord (mkEvent 5 IN_MODIFY 0 0) [] ].

(** Closed goals on concrete inputs are settled by evaluation. *)
Ltac evaluate :=
  vm_compute; first [reflexivity | discriminate | intro; discriminate].

(** ** Observations on the life of a monitor *)

(** Two more event masks of <sys/inotify.h>: the flag set on events of a
    subdirectory, and the mask of the record, sent with watch descriptor
    -1, by which the kernel reports that its event queue overflowed. *)
Definition IN_ISDIR      : Z := 0x40000000.
Definition IN_Q_OVERFLOW : Z := 0x00004000.

(** What [readEvents] does to the outside on channel [fd]: it writes the
    lines of events and of the file watch, releases a watch, and registers
    the target file for all events. *)
Definition readEvents_effect (fd : Z) (e : Effect) : bool :=
  match e with
  | inotify_add_watch fd' TargetFile m _ => (fd' =? fd) && (m =? IN_ALL_EVENTS)
  | inotify_rm_watch fd' _ => fd' =? fd
  | cout (directory_event _ _) => true
  | cout (file_event _) => true
  | cout remove_watcher_on_file => true
  | cout add_watcher_on_file => true
  | cerr add_watch_failed_for_file => true
  | _ => false
  end.

(** [s'] is [s] but for the file watch: the other members are the same,
    the trace has grown by effects of [readEvents] only, and the kernel's
    script has only been read further. *)
Definition moved_file_watch_only (s s' : State) : Prop :=
  inotifyConn s' = inotifyConn s /\
  inotifyFd s' = inotifyFd s /\
  dirWatchDesc s' = dirWatchDesc s /\
  filename s' = filename s /\
  (exists tr : list Effect,
     trace s' = trace s ++ tr /\
     forallb (readEvents_effect (inotifyFd s)) tr = true) /\
  (exists answers : list Z, kernel s = answers ++ kernel s').

(** The states a monitor goes through: the one its constructor leaves, and
    those left by the completion handler of a read. *)
Inductive reachable : State -> Prop :=
| reachable_constructor (name : list byte) (script : list Z) :
    reachable (constructor name script)
| reachable_handler (ec : bool) (buf : list byte) (bt : Z) (s s' : State) :
    reachable s ->
    monitorFilesystemEvent_handler ec buf bt s = Returns s' ->
    reachable s'.

(** Every directory watch that the trace leaves outstanding is the one
    held in [dirWatchDesc]. *)
Definition directory_watch_held (s : State) : Prop :=
  incl (watches ParentDirectory (trace s)) (handles (dirWatchDesc s)).

(** The record by which the kernel reports that its queue overflowed:
    watch descriptor -1, no name. *)
Definition queue_overflow_record : list byte :=
  record_bytes (-1) IN_Q_OVERFLOW 0 [].

(** The two complete records of [create_modify_and_three_bytes]. *)
Definition create_modify : list byte :=
  record_bytes 1 IN_CREATE 0 f_txt_field ++ record_bytes 5 IN_MODIFY 0 [].

(** Two records of watches that a monitor with handles 1 and 2 does not
    hold: a stale watch 9 with a name, and watch 4. *)
Definition stale_records : list byte :=
  record_bytes 9 IN_DELETE 0 f_txt_field ++ record_bytes 4 IN_MODIFY 0 [].

(** A closed range [a <= x < b]. *)
Ltac evaluate_range := split; evaluate.

(** * Properties *)

(** ** The event classifier *)

(** C9. [getEventString] is a total function of the mask alone: on each of
    the twelve single-bit masks (access, attribute-change, close-after-write,
    close-without-write, create, delete, delete-self, modify, move-self,
    moved-from, moved-to, open) it returns a description that is not empty,
    and on every other value it returns the empty description. *)
Theorem getEventString_classifies_known_masks :
  known_event_masks
    = map (fun k => 2 ^ k) [0; 2; 3; 4; 8; 9; 10; 1; 11; 6; 7; 5] /\
  NoDup known_event_masks /\
  forall m : Z,
    (In m known_event_masks -> getEventString m <> EmptyString) /\
    (~ In m known_event_masks -> getEventString m = EmptyString).
Proof.
  split; [reflexivity|]. split.
  - unfold known_event_masks.
    repeat (constructor; [simpl; intros H; repeat destruct H as [H|H]; try discriminate H; exact H|]).
    constructor.
  - intro m. split.
    + intros H. simpl in H.
      repeat (destruct H as [H|H]; [subst m; discriminate|]).
      contradiction.
    + intros H. unfold getEventString.
      repeat match goal with
             | |- context [m =? ?c] =>
                 destruct (Z.eqb_spec m c) as [E|_];
                 [exfalso; apply H; rewrite E; simpl; tauto|]
             end.
      reflexivity.
Qed.

Lemma getEventString_classifies_known_masks_witness :
  getEventString IN_MOVE_SELF <> EmptyString /\
  getEventString (IN_CREATE + IN_DELETE) = EmptyString.
Proof.
  destruct getEventString_classifies_known_masks as [_ [_ H]].
  split.
  - apply (H IN_MOVE_SELF). simpl. tauto.
  - apply (H (IN_CREATE + IN_DELETE)). simpl.
    intros K. repeat (destruct K as [K|K]; [discriminate K|]). exact K.
Defined.

(** ** Removing watches and tearing down *)

Lemma rm_watch_calls_app (tr1 tr2 : list Effect) :
  rm_watch_calls (tr1 ++ tr2) = rm_watch_calls tr1 ++ rm_watch_calls tr2.
Proof.
  induction tr1 as [|e tr1 IH]; simpl; [reflexivity|].
  destruct e; simpl; rewrite IH; reflexivity.
Qed.

Lemma rmWatchOnFile_absent (s : State) :
  fileWatchDesc s = -1 -> rmWatchOnFile s = s.
Proof. intros H. unfold rmWatchOnFile. rewrite H. reflexivity. Qed.

Lemma rmWatchOnDir_absent (s : State) :
  dirWatchDesc s = -1 -> rmWatchOnDir s = s.
Proof. intros H. unfold rmWatchOnDir. rewrite H. reflexivity. Qed.

Lemma rmWatchOnFile_fileWatchDesc (s : State) :
  fileWatchDesc (rmWatchOnFile s) = -1.
Proof.
  unfold rmWatchOnFile.
  destruct (Z.eqb_spec (fileWatchDesc s) (-1)) as [E|E]; simpl; auto.
Qed.

Lemma rmWatchOnDir_dirWatchDesc (s : State) :
  dirWatchDesc (rmWatchOnDir s) = -1.
Proof.
  unfold rmWatchOnDir.
  destruct (Z.eqb_spec (dirWatchDesc s) (-1)) as [E|E]; simpl; auto.
Qed.

Lemma rmWatchOnFile_trace (s : State) :
  trace (rmWatchOnFile s)
  = trace s ++ (if live (fileWatchDesc s)
                then [cout remove_watcher_on_file;
                      inotify_rm_watch (inotifyFd s) (fileWatchDesc s)]
                else []).
Proof.
  unfold rmWatchOnFile, live.
  destruct (Z.eqb_spec (fileWatchDesc s) (-1)) as [E|E]; simpl.
  - rewrite app_nil_r. reflexivity.
  - rewrite <- app_assoc. reflexivity.
Qed.

Lemma rmWatchOnDir_trace (s : State) :
  trace (rmWatchOnDir s)
  = trace s ++ (if live (dirWatchDesc s)
                then [cout remove_watcher_on_directory;
                      inotify_rm_watch (inotifyFd s) (dirWatchDesc s)]
                else []).
Proof.
  unfold rmWatchOnDir, live.
  destruct (Z.eqb_spec (dirWatchDesc s) (-1)) as [E|E]; simpl.
  - rewrite app_nil_r. reflexivity.
  - rewrite <- app_assoc. reflexivity.
Qed.

(** C8, as amended. Removing a watch that is absent calls nothing and
    leaves the state as it is, so removing twice is removing once; and the
    destructor calls [inotify_rm_watch] once for each slot that holds a live
    handle, the directory's then the file's, never for the sentinel, and
    leaves both slots at the sentinel. Each live handle is thus released
    exactly once when the two slots hold different handles; when they hold
    the same live handle, that handle is handed over twice. *)
Theorem removal_is_idempotent_and_teardown_exact (s : State) :
  (dirWatchDesc s = -1 -> rmWatchOnDir s = s) /\
  (fileWatchDesc s = -1 -> rmWatchOnFile s = s) /\
  rmWatchOnDir (rmWatchOnDir s) = rmWatchOnDir s /\
  rmWatchOnFile (rmWatchOnFile s) = rmWatchOnFile s /\
  rm_watch_calls (trace (destructor s))
  = rm_watch_calls (trace s) ++ handles (dirWatchDesc s) ++ handles (fileWatchDesc s) /\
  dirWatchDesc (destructor s) = -1 /\
  fileWatchDesc (destructor s) = -1 /\
  rm_watch_calls (trace (destructor (destructor s)))
  = rm_watch_calls (trace (destructor s)) /\
  (forall w : Z,
     In w (handles (dirWatchDesc s) ++ handles (fileWatchDesc s))
     <-> w <> -1 /\ (w = dirWatchDesc s \/ w = fileWatchDesc s)) /\
  (dirWatchDesc s <> fileWatchDesc s ->
   NoDup (handles (dirWatchDesc s) ++ handles (fileWatchDesc s))) /\
  (dirWatchDesc s = fileWatchDesc s -> dirWatchDesc s <> -1 ->
   handles (dirWatchDesc s) ++ handles (fileWatchDesc s)
   = [dirWatchDesc s; dirWatchDesc s]).
Proof.
  assert (D : forall t, rm_watch_calls (trace (destructor t))
            = rm_watch_calls (trace t) ++ handles (dirWatchDesc t)
              ++ handles (fileWatchDesc t)).
  { intro t. unfold destructor, handles. simpl.
    rewrite rm_watch_calls_app, rmWatchOnFile_trace, rm_watch_calls_app,
      rmWatchOnDir_trace, rm_watch_calls_app.
    simpl. rewrite app_nil_r, <- app_assoc. f_equal.
    assert (F : fileWatchDesc (rmWatchOnDir t) = fileWatchDesc t).
    { unfold rmWatchOnDir. destruct (negb _); reflexivity. }
    rewrite F.
    destruct (live (dirWatchDesc t)), (live (fileWatchDesc t)); reflexivity. }
  assert (Dd : forall t, dirWatchDesc (destructor t) = -1).
  { intro t. unfold destructor. simpl.
    unfold rmWatchOnFile. destruct (negb _); simpl; apply rmWatchOnDir_dirWatchDesc. }
  assert (Df : forall t, fileWatchDesc (destructor t) = -1).
  { intro t. unfold destructor. simpl. apply rmWatchOnFile_fileWatchDesc. }
  split; [|split; [|split; [|split; [|split; [|split; [|split;
    [|split; [|split; [|split]]]]]]]]].
  - apply rmWatchOnDir_absent.
  - apply rmWatchOnFile_absent.
  - apply rmWatchOnDir_absent, rmWatchOnDir_dirWatchDesc.
  - apply rmWatchOnFile_absent, rmWatchOnFile_fileWatchDesc.
  - apply D.
  - apply Dd.
  - apply Df.
  - rewrite (D (destructor s)), Dd, Df. simpl. rewrite app_nil_r. reflexivity.
  - intros w. unfold handles, live.
    destruct (Z.eqb_spec (dirWatchDesc s) (-1)) as [Ed|Ed];
      destruct (Z.eqb_spec (fileWatchDesc s) (-1)) as [Ef|Ef]; simpl;
      split; intros H; try lia; try tauto;
      try (destruct H as [Hw [H|H]]; subst w; tauto);
      try (split; [|tauto]; intros ->; destruct H as [H|[H|[]]];
           congruence);
      try (split; [|tauto]; intros ->; destruct H as [H|[]]; congruence).
  - intros Hne. unfold handles.
    destruct (live (dirWatchDesc s)), (live (fileWatchDesc s)); simpl;
      repeat constructor; simpl; try tauto.
    intros [H|[]]. apply Hne. symmetry. exact H.
  - intros He Hl. rewrite <- He. unfold handles, live.
    destruct (Z.eqb_spec (dirWatchDesc s) (-1)) as [E|_]; [contradiction|].
    reflexivity.
Qed.

Lemma removal_is_idempotent_and_teardown_exact_witness :
  rmWatchOnFile (running (-1) []) = running (-1) [] /\
  rm_watch_calls (trace (destructor (running (-1) []))) = [1] /\
  rm_watch_calls (trace (destructor (running 2 []))) = [1; 2].
Proof.
  pose proof (removal_is_idempotent_and_teardown_exact (running (-1) []))
    as [_ [A [_ [_ [B _]]]]].
  pose proof (removal_is_idempotent_and_teardown_exact (running 2 []))
    as [_ [_ [_ [_ [C _]]]]].
  split; [|split].
  - apply A. reflexivity.
  - exact B.
  - exact C.
Defined.

(** C8, the claim as stated fails: for the target "." of a directory the
    kernel returns the directory's own descriptor, so both slots hold
    handle 1 and the destructor hands it to [inotify_rm_watch] twice, once
    for each slot, instead of exactly once. *)
Lemma teardown_removes_a_shared_handle_twice :
  reachable (constructor (list_byte_of_string ".") [4; 1; 1]) /\
  dirWatchDesc (constructor (list_byte_of_string ".") [4; 1; 1]) = 1 /\
  fileWatchDesc (constructor (list_byte_of_string ".") [4; 1; 1]) = 1 /\
  rm_watch_calls
    (trace (destructor (constructor (list_byte_of_string ".") [4; 1; 1])))
  = [1; 1] /\
  ~ NoDup (rm_watch_calls
             (trace (destructor (constructor (list_byte_of_string ".") [4; 1; 1])))).
Proof.
  split; [apply reachable_constructor|].
  split; [evaluate|]. split; [evaluate|]. split; [evaluate|].
  vm_compute. intros H. inversion H as [|x l Hin _]. apply Hin. left. reflexivity.
Qed.

(** ** Construction *)

(** C7. When the kernel refuses the directory watch the constructor returns
    before any read is posted: the descriptor is never assigned and the trace
    holds the two calls and the complaint, nothing else. When only the file
    watch is refused the constructor goes on: the directory watch is the one
    live handle, the descriptor is assigned and one read is posted. *)
Theorem construction_fails_only_without_directory_watch
    (name : list byte) (fd : Z) (later : list Z) :
  fd <> -1 ->
  (let s := constructor name (fd :: -1 :: later) in
   reads_posted (trace s) = 0%nat /\
   inotifyConn s = Some None /\
   trace s = [inotify_init1 fd;
              inotify_add_watch fd ParentDirectory IN_ALL_EVENTS (-1);
              cerr add_watch_failed_for_directory]) /\
  (forall d : Z, d <> -1 ->
   let s := constructor name (fd :: d :: -1 :: later) in
   reads_posted (trace s) = 1%nat /\
   inotifyConn s = Some (Some fd) /\
   dirWatchDesc s = d /\
   fileWatchDesc s = -1 /\
   trace s = [inotify_init1 fd;
              inotify_add_watch fd ParentDirectory IN_ALL_EVENTS d;
              cout add_watcher_on_directory;
              inotify_add_watch fd TargetFile IN_ALL_EVENTS (-1);
              cerr add_watch_failed_for_file;
              assign fd;
              async_read_some]).
Proof.
  intros Hfd. split.
  - unfold constructor, addWatchOnDir, kernel_return. simpl.
    destruct (Z.eqb_spec fd (-1)) as [E|_]; [contradiction|].
    simpl. repeat split; reflexivity.
  - intros d Hd.
    unfold constructor, addWatchOnDir, addWatchOnFile, kernel_return. simpl.
    destruct (Z.eqb_spec fd (-1)) as [E|_]; [contradiction|]. simpl.
    destruct (Z.eqb_spec d (-1)) as [E|_]; [contradiction|]. simpl.
    repeat split; reflexivity.
Qed.

Lemma construction_fails_only_without_directory_watch_witness :
  reads_posted (trace (constructor f_txt [3; -1; 2])) = 0%nat /\
  reads_posted (trace (constructor f_txt [3; 1; -1])) = 1%nat /\
  handles (dirWatchDesc (constructor f_txt [3; 1; -1]))
  ++ handles (fileWatchDesc (constructor f_txt [3; 1; -1])) = [1].
Proof.
  assert (H3 : 3 <> -1) by discriminate.
  pose proof (construction_fails_only_without_directory_watch f_txt 3 [2] H3)
    as [[A _] _].
  pose proof (construction_fails_only_without_directory_watch f_txt 3 [] H3)
    as [_ B].
  assert (H1 : 1 <> -1) by discriminate.
  specialize (B 1 H1). destruct B as [B _].
  split; [exact A|]. split; [exact B|]. reflexivity.
Defined.

(** ** Bytes, headers and C strings *)

Lemma bytes_eqb_eq (a b : list byte) : bytes_eqb a b = true <-> a = b.
Proof.
  revert b. induction a as [|x a IH]; intros [|y b]; simpl;
    try (split; [discriminate | discriminate]); [tauto|].
  rewrite andb_true_iff, IH. split.
  - intros [H1 H2]. apply Byte.byte_dec_bl in H1. congruence.
  - intros H. injection H as -> ->. split; [apply Byte.byte_dec_lb|]; reflexivity.
Qed.

Lemma bytes_eqb_refl (a : list byte) : bytes_eqb a a = true.
Proof. apply bytes_eqb_eq. reflexivity. Qed.

Lemma bytes_eqb_neq (a b : list byte) : a <> b -> bytes_eqb a b = false.
Proof.
  intros H. destruct (bytes_eqb a b) eqn:E; [|reflexivity].
  apply bytes_eqb_eq in E. contradiction.
Qed.

Lemma Z_of_byte_range (b : byte) : 0 <= Z_of_byte b < 256.
Proof.
  unfold Z_of_byte. pose proof (Byte.to_N_bounded b). lia.
Qed.

Lemma le_uint32_range (b0 b1 b2 b3 : byte) : 0 <= le_uint32 b0 b1 b2 b3 < 2 ^ 32.
Proof.
  unfold le_uint32.
  pose proof (Z_of_byte_range b0). pose proof (Z_of_byte_range b1).
  pose proof (Z_of_byte_range b2). pose proof (Z_of_byte_range b3).
  lia.
Qed.

Lemma memcpy_event_len_range (buf : list byte) (i : Z) (ev : inotify_event) :
  memcpy_event buf i = Some ev -> 0 <= len ev < 2 ^ 32.
Proof.
  unfold memcpy_event.
  destruct (firstn 16 (skipn (Z.to_nat i) buf)) as [|? l]; [discriminate|].
  do 15 (destruct l as [|? l]; [discriminate|]).
  destruct l; [|discriminate].
  intros H. injection H as <-. simpl. apply le_uint32_range.
Qed.

Lemma memcpy_event_inside (buf : list byte) (i : Z) (ev : inotify_event) :
  memcpy_event buf i = Some ev ->
  (Z.to_nat i + 16 <= List.length buf)%nat.
Proof.
  unfold memcpy_event. intros H.
  assert (L : List.length (firstn 16 (skipn (Z.to_nat i) buf)) = 16%nat).
  { destruct (firstn 16 (skipn (Z.to_nat i) buf)) as [|? l]; [discriminate|].
    do 15 (destruct l as [|? l]; [discriminate|]).
    destruct l; [reflexivity|discriminate]. }
  rewrite length_firstn, length_skipn in L. lia.
Qed.

Lemma size_add_exact (a b : Z) : 0 <= a + b < size_max -> size_add a b = a + b.
Proof. intros H. unfold size_add. apply Z.mod_small. exact H. Qed.

Lemma c_str_until_nul (field rest : list byte) :
  In x00 field -> c_str (field ++ rest) = Some (until_nul field).
Proof.
  induction field as [|c field IH]; simpl; [contradiction|].
  intros [H|H].
  - subst c. reflexivity.
  - destruct (Byte.eqb c x00); [reflexivity|].
    rewrite (IH H). reflexivity.
Qed.



(** A slice of a list is a slice of each of its prefixes that hold it. *)
Lemma slice_of_prefix (l l' : list byte) (k n m : nat) :
  (k + n <= m)%nat ->
  firstn m l' = firstn m l ->
  firstn n (skipn k l') = firstn n (skipn k l).
Proof.
  intros Hle H.
  rewrite !firstn_skipn_comm.
  rewrite <- (Nat.min_l (k + n) m Hle), <- !firstn_firstn, H.
  reflexivity.
Qed.

(** ** The state after the watch operations *)

Lemma addWatchOnFile_result (s : State) :
  let r := hd (-1) (kernel s) in
  fst (addWatchOnFile s) = live r /\
  fileWatchDesc (snd (addWatchOnFile s)) = r /\
  dirWatchDesc (snd (addWatchOnFile s)) = dirWatchDesc s /\
  inotifyFd (snd (addWatchOnFile s)) = inotifyFd s /\
  filename (snd (addWatchOnFile s)) = filename s /\
  kernel (snd (addWatchOnFile s)) = tl (kernel s) /\
  trace (snd (addWatchOnFile s))
  = trace s ++ [inotify_add_watch (inotifyFd s) TargetFile IN_ALL_EVENTS r;
                if live r then cout add_watcher_on_file
                else cerr add_watch_failed_for_file].
Proof.
  destruct s as [c fd d f name tr k].
  unfold addWatchOnFile, kernel_return, live. simpl.
  destruct k as [|r k]; simpl.
  - rewrite <- app_assoc. repeat split; reflexivity.
  - destruct (Z.eqb_spec r (-1)) as [E|E]; simpl;
      rewrite <- app_assoc; repeat split; reflexivity.
Qed.

Lemma rmWatchOnFile_frame (s : State) :
  dirWatchDesc (rmWatchOnFile s) = dirWatchDesc s /\
  inotifyFd (rmWatchOnFile s) = inotifyFd s /\
  filename (rmWatchOnFile s) = filename s /\
  kernel (rmWatchOnFile s) = kernel s.
Proof.
  unfold rmWatchOnFile. destruct (negb _); simpl; repeat split; reflexivity.
Qed.

(** ** The state a create record leaves *)

Lemma rewatched_state (s : State) :
  let r := hd (-1) (kernel s) in
  fileWatchDesc (rewatched s) = r /\
  dirWatchDesc (rewatched s) = dirWatchDesc s /\
  filename (rewatched s) = filename s /\
  kernel (rewatched s) = tl (kernel s) /\
  trace (rewatched s)
  = trace s
    ++ [cout (directory_event (filename s) (getEventString IN_CREATE))]
    ++ (if live (fileWatchDesc s)
        then [cout remove_watcher_on_file;
              inotify_rm_watch (inotifyFd s) (fileWatchDesc s)]
        else [])
    ++ [inotify_add_watch (inotifyFd s) TargetFile IN_ALL_EVENTS r;
        if live r then cout add_watcher_on_file
        else cerr add_watch_failed_for_file].
Proof.
  unfold rewatched.
  set (s1 := emit _ s).
  pose proof (addWatchOnFile_result (rmWatchOnFile s1)) as A. cbv zeta in A.
  destruct (rmWatchOnFile_frame s1) as [Fd [Ffd [Fn Fk]]].
  rewrite Fk, Ffd in A.
  destruct A as [_ [A1 [A2 [_ [A4 [A5 A6]]]]]].
  cbv zeta. split; [exact A1|]. split; [rewrite A2, Fd; reflexivity|].
  split; [rewrite A4, Fn; reflexivity|]. split; [exact A5|].
  rewrite A6, rmWatchOnFile_trace. subst s1. simpl.
  rewrite <- !app_assoc. reflexivity.
Qed.

(** ** Invariant I1: the watches left outstanding *)

Lemma watches_snoc (p : Path) (tr : list Effect) (e : Effect) :
  watches p (tr ++ [e]) = track p (watches p tr) e.
Proof. unfold watches. rewrite fold_left_app. reflexivity. Qed.

Lemma handles_absent : handles (-1) = [].
Proof. reflexivity. Qed.

Lemma tracked_emit_cout (s : State) (l : Line) :
  tracked s -> tracked (emit (cout l) s).
Proof.
  unfold tracked. simpl. rewrite !watches_snoc. simpl. tauto.
Qed.

Lemma tracked_rmWatchOnFile (s : State) :
  tracked s -> tracked (rmWatchOnFile s).
Proof.
  intros [Td Tf]. unfold rmWatchOnFile.
  destruct (Z.eqb_spec (fileWatchDesc s) (-1)) as [E|E]; simpl; [split; assumption|].
  unfold tracked. simpl. rewrite !watches_snoc. simpl. split.
  - etransitivity; [apply filter_length_le|exact Td].
  - rewrite Tf. unfold handles, live.
    destruct (Z.eqb_spec (fileWatchDesc s) (-1)) as [E'|_]; [contradiction|].
    simpl. rewrite Z.eqb_refl. reflexivity.
Qed.

Lemma tracked_addWatchOnFile (s : State) :
  tracked s -> fileWatchDesc s = -1 -> tracked (snd (addWatchOnFile s)).
Proof.
  intros [Td Tf] Hf.
  destruct (addWatchOnFile_result s) as [_ [A1 [_ [_ [_ [_ A6]]]]]].
  unfold tracked. rewrite A1, A6.
  replace (trace s ++ [inotify_add_watch (inotifyFd s) TargetFile IN_ALL_EVENTS
                         (hd (-1) (kernel s));
                       if live (hd (-1) (kernel s)) then cout add_watcher_on_file
                       else cerr add_watch_failed_for_file])
    with ((trace s ++ [inotify_add_watch (inotifyFd s) TargetFile IN_ALL_EVENTS
                         (hd (-1) (kernel s))])
          ++ [if live (hd (-1) (kernel s)) then cout add_watcher_on_file
              else cerr add_watch_failed_for_file])
    by (rewrite <- app_assoc; reflexivity).
  rewrite !watches_snoc, Tf, Hf, handles_absent.
  unfold handles, track. simpl.
  destruct (live (hd (-1) (kernel s))); simpl; split;
    first [exact Td | reflexivity].
Qed.

Lemma tracked_rewatched (s : State) : tracked s -> tracked (rewatched s).
Proof.
  intros T. unfold rewatched.
  apply tracked_addWatchOnFile.
  - apply tracked_rmWatchOnFile, tracked_emit_cout, T.
  - apply rmWatchOnFile_fileWatchDesc.
Qed.

Create HintDb tracked.
#[local] Hint Resolve tracked_emit_cout tracked_rmWatchOnFile
  tracked_rewatched : tracked.

Lemma tracked_constructor (name : list byte) (script : list Z) :
  tracked (constructor name script).
Proof.
  unfold constructor, addWatchOnDir, addWatchOnFile, kernel_return, tracked,
    watches, handles.
  destruct script as [|fd [|d [|f later]]]; simpl;
    repeat (unfold live;
            match goal with
            | |- context [?a =? ?b] => destruct (Z.eqb_spec a b); simpl
            end);
    try contradiction; split; first [lia | reflexivity].
Qed.

Lemma readEvents_body_tracked (buf : list byte) (bt index : Z) (s : State) :
  tracked s ->
  match readEvents_body buf bt index s with
  | Continue _ s' => tracked s'
  | Return s' => tracked s'
  | Undefined => True
  end.
Proof.
  intros T. unfold readEvents_body.
  destruct (memcpy_event buf index) as [ev|]; [|exact I]. cbv zeta.
  destruct (wd ev =? dirWatchDesc s).
  - destruct ((len ev =? 0) || _); [exact T|].
    destruct (string_at buf _) as [name|]; [|exact I].
    destruct (negb (bytes_eqb name (filename s))); [exact T|].
    set (s1 := emit _ s).
    assert (T1 : tracked s1) by (apply tracked_emit_cout, T).
    destruct (mask ev =? IN_CREATE).
    + pose proof (tracked_addWatchOnFile (rmWatchOnFile s1)
                    (tracked_rmWatchOnFile s1 T1)
                    (rmWatchOnFile_fileWatchDesc s1)) as T2.
      destruct (addWatchOnFile (rmWatchOnFile s1)) as [ok s2].
      simpl in T2. destruct (negb ok); exact T2.
    + destruct ((mask ev =? IN_DELETE) || (mask ev =? IN_MOVED_TO));
        auto with tracked.
  - destruct (wd ev =? fileWatchDesc s); auto with tracked.
Qed.

Lemma readEvents_loop_tracked (fuel : nat) (buf : list byte) (bt : Z) :
  forall (index : Z) (s s' : State),
    tracked s ->
    readEvents_loop fuel buf bt index s = Returns s' ->
    tracked s'.
Proof.
  induction fuel as [|fuel IH]; intros index s s' T; simpl; [discriminate|].
  destruct (size_add index iEventSize <=? bt).
  - pose proof (readEvents_body_tracked buf bt index s T) as B.
    destruct (readEvents_body buf bt index s) as [i1 s1|s1|].
    + apply IH. exact B.
    + intros H. injection H as <-. exact B.
    + discriminate.
  - intros H. injection H as <-. exact T.
Qed.

(** ** One pass of the loop over a directory record that carries a name *)

Arguments size_add : simpl never.

Lemma readEvents_loop_guard (fuel : nat) (buf : list byte) (bt index : Z)
    (s : State) :
  0 <= index -> bt < size_max -> index + iEventSize <= bt ->
  readEvents_loop (S fuel) buf bt index s
  = match readEvents_body buf bt index s with
    | Continue index' s' => readEvents_loop fuel buf bt index' s'
    | Return s' => Returns s'
    | Undefined => UndefinedBehaviour
    end.
Proof.
  intros Hi Hbt Hg. simpl.
  unfold iEventSize, size_max in *.
  rewrite (size_add_exact index 16) by (unfold size_max; lia).
  destruct (Z.leb_spec (index + 16) bt) as [_|E]; [reflexivity|lia].
Qed.

Lemma reads_posted_app (tr1 tr2 : list Effect) :
  reads_posted (tr1 ++ tr2) = (reads_posted tr1 + reads_posted tr2)%nat.
Proof.
  induction tr1 as [|e tr1 IH]; simpl; [reflexivity|].
  destruct e; simpl; rewrite IH; reflexivity.
Qed.

Lemma dispatched_app (tr1 tr2 : list Effect) :
  dispatched (tr1 ++ tr2) = dispatched tr1 ++ dispatched tr2.
Proof.
  induction tr1 as [|e tr1 IH]; simpl; [reflexivity|].
  destruct e as [| | | | | |l|]; simpl; try exact IH.
  destruct l; simpl; rewrite IH; reflexivity.
Qed.

Section DirectoryRecord.

(** The pass at [index] reads the header [ev] of a record of the directory
    watch whose name field is not empty and lies inside the valid bytes. *)
Variables (buf : list byte) (bt index : Z) (s : State) (ev : inotify_event).
Hypothesis index_in_range : 0 <= index.
Hypothesis bt_in_range : bt < size_max.
Hypothesis header_read : memcpy_event buf index = Some ev.
Hypothesis of_directory : wd ev = dirWatchDesc s.
Hypothesis has_name : len ev <> 0.
Hypothesis name_fits : index + iEventSize + len ev <= bt.

Lemma readEvents_body_named (name : list byte) :
  string_at buf (index + iEventSize) = Some name ->
  readEvents_body buf bt index s
  = let next := index + iEventSize + len ev in
    if negb (bytes_eqb name (filename s)) then Continue next s
    else
      let s1 := emit (cout (directory_event name
                        (getEventString (int_of_uint32 (mask ev))))) s in
      if mask ev =? IN_CREATE then
        let '(ok, s2) := addWatchOnFile (rmWatchOnFile s1) in
        if negb ok then Return s2 else Continue next s2
      else if (mask ev =? IN_DELETE) || (mask ev =? IN_MOVED_TO) then
        Continue next (rmWatchOnFile s1)
      else Continue next s1.
Proof using All.
  intros Hname.
  pose proof (memcpy_event_len_range _ _ _ header_read) as Hr.
  unfold iEventSize, size_max in *.
  unfold readEvents_body. rewrite header_read. cbv zeta.
  unfold iEventSize.
  rewrite (size_add_exact 16 (len ev)) by (unfold size_max; lia).
  rewrite (size_add_exact index 16) by (unfold size_max; lia).
  rewrite (size_add_exact index (16 + len ev)) by (unfold size_max; lia).
  rewrite (size_add_exact (index + 16) (len ev)) by (unfold size_max; lia).
  rewrite of_directory, Z.eqb_refl.
  destruct (Z.eqb_spec (len ev) 0) as [E|_]; [contradiction|].
  destruct (Z.gtb_spec (index + 16 + len ev) bt) as [E|_]; [lia|].
  simpl orb. cbv iota. rewrite Hname.
  replace (index + (16 + len ev)) with (index + 16 + len ev) by lia.
  reflexivity.
Qed.

(** When the string the code reads behind the header is not the target's
    name, the pass leaves the state as it was. *)
Lemma readEvents_body_other_name (name : list byte) :
  string_at buf (index + iEventSize) = Some name ->
  name <> filename s ->
  readEvents_body buf bt index s = Continue (index + iEventSize + len ev) s /\
  forall fuel : nat,
    readEvents_loop (S fuel) buf bt index s
    = readEvents_loop fuel buf bt (index + iEventSize + len ev) s.
Proof using All.
  intros Hname Hne.
  pose proof (memcpy_event_len_range _ _ _ header_read) as Hr.
  assert (B : readEvents_body buf bt index s
              = Continue (index + iEventSize + len ev) s).
  { rewrite (readEvents_body_named name Hname). cbv zeta.
    rewrite (bytes_eqb_neq _ _ Hne). reflexivity. }
  split; [exact B|].
  intros fuel.
  rewrite readEvents_loop_guard by (unfold iEventSize in *; lia).
  rewrite B. reflexivity.
Qed.

(** From here on the record names the target. *)
Hypothesis names_target : string_at buf (index + iEventSize) = Some (filename s).

Lemma readEvents_body_create :
  mask ev = IN_CREATE ->
  readEvents_body buf bt index s
  = if live (hd (-1) (kernel s))
    then Continue (index + iEventSize + len ev) (rewatched s)
    else Return (rewatched s).
Proof using All.
  intros Hmask.
  rewrite (readEvents_body_named (filename s) names_target). cbv zeta.
  rewrite bytes_eqb_refl, Hmask. simpl negb. cbv iota.
  change (IN_CREATE =? IN_CREATE) with true. cbv iota zeta.
  change (getEventString (int_of_uint32 IN_CREATE)) with (getEventString IN_CREATE).
  unfold rewatched.
  set (s1 := rmWatchOnFile _).
  pose proof (addWatchOnFile_result s1) as [A _]. cbv zeta in A.
  assert (K : kernel s1 = kernel s).
  { subst s1. destruct (rmWatchOnFile_frame
      (emit (cout (directory_event (filename s) (getEventString IN_CREATE))) s))
      as [_ [_ [_ K]]]. exact K. }
  rewrite K in A.
  destruct (addWatchOnFile s1) as [ok s2]. simpl in A. subst ok. simpl snd.
  destruct (live (hd (-1) (kernel s))); reflexivity.
Qed.

(** C10. When the kernel refuses the new file watch that a create record
    for the target asks for, [readEvents] returns on the spot, whatever the
    buffer holds behind that record: the trace ends with the event of the
    create record, the removal of the old watch and the refused call, so
    nothing that follows in the batch is dispatched or touches a watch. *)
Theorem failed_rewatch_abandons_the_batch (fuel : nat) :
  mask ev = IN_CREATE ->
  hd (-1) (kernel s) = -1 ->
  exists s' : State,
    readEvents_loop (S fuel) buf bt index s = Returns s' /\
    fileWatchDesc s' = -1 /\
    dirWatchDesc s' = dirWatchDesc s /\
    trace s'
    = trace s
      ++ [cout (directory_event (filename s) (getEventString IN_CREATE))]
      ++ file_watch_removal s
      ++ [inotify_add_watch (inotifyFd s) TargetFile IN_ALL_EVENTS (-1);
          cerr add_watch_failed_for_file].
Proof using All.
  intros Hmask Hk.
  pose proof (memcpy_event_len_range _ _ _ header_read) as Hr.
  exists (rewatched s).
  destruct (rewatched_state s) as [R1 [R2 [_ [_ R5]]]].
  rewrite Hk in R1, R5.
  split; [|split; [exact R1|split; [exact R2|exact R5]]].
  rewrite readEvents_loop_guard by (unfold iEventSize in *; lia).
  rewrite (readEvents_body_create Hmask).
  rewrite Hk. reflexivity.
Qed.


(** C5, as amended. A create record for the target, met in a state that
    keeps invariant I1, first removes the file watch there is, then asks for
    a new one: the invariant still holds afterwards, so there are never two
    file watches; there is exactly one, the new handle, when the kernel
    grants it (and the loop goes on), and none when the kernel refuses it
    (and [readEvents] returns). *)
Theorem create_record_rewatches_the_file :
  mask ev = IN_CREATE ->
  tracked s ->
  let r := hd (-1) (kernel s) in
  exists s' : State,
    readEvents_body buf bt index s
    = (if live r then Continue (index + iEventSize + len ev) s' else Return s') /\
    tracked s' /\
    fileWatchDesc s' = r /\
    watches TargetFile (trace s') = (if live r then [r] else []) /\
    (List.length (watches ParentDirectory (trace s')) <= 1)%nat /\
    trace s'
    = trace s
      ++ [cout (directory_event (filename s) (getEventString IN_CREATE))]
      ++ file_watch_removal s
      ++ [inotify_add_watch (inotifyFd s) TargetFile IN_ALL_EVENTS r;
          if live r then cout add_watcher_on_file
          else cerr add_watch_failed_for_file].
Proof using All.
  intros Hmask T r.
  exists (rewatched s).
  destruct (rewatched_state s) as [R1 [_ [_ [_ R5]]]].
  pose proof (tracked_rewatched s T) as T'.
  split; [exact (readEvents_body_create Hmask)|].
  split; [exact T'|]. split; [exact R1|].
  split; [|split; [exact (proj1 T')|exact R5]].
  destruct T' as [_ Tf]. rewrite Tf, R1. reflexivity.
Qed.

End DirectoryRecord.

Lemma failed_rewatch_abandons_the_batch_witness :
  exists s' : State,
    readEvents create_delete_modify 80 (running 2 [-1]) = Returns s' /\
    dispatched (trace s') = [directory_event f_txt (getEventString IN_CREATE)] /\
    rm_watch_calls (trace s') = [2] /\
    fileWatchDesc s' = -1.
Proof.
  destruct (failed_rewatch_abandons_the_batch
              create_delete_modify 80 0 (running 2 [-1]) (mkEvent 1 IN_CREATE 0 16)
              ltac:(evaluate) ltac:(evaluate) ltac:(evaluate) ltac:(evaluate)
              ltac:(evaluate) ltac:(evaluate) ltac:(evaluate)
              (List.length create_delete_modify)
              ltac:(evaluate) ltac:(evaluate))
    as [s' [H1 [H2 [_ H4]]]].
  exists s'. split; [exact H1|].
  rewrite H4. split; [evaluate|]. split; [evaluate|exact H2].
Defined.



Lemma create_record_rewatches_the_file_witness :
  exists s' : State,
    readEvents_body (record_bytes 1 IN_CREATE 0 f_txt_field) 32 0 (running 2 [5])
    = Continue 32 s' /\
    watches TargetFile (trace (running 2 [5])) = [2] /\
    watches TargetFile (trace s') = [5] /\
    rm_watch_calls (trace s') = [2].
Proof.
  destruct (create_record_rewatches_the_file
              (record_bytes 1 IN_CREATE 0 f_txt_field) 32 0 (running 2 [5])
              (mkEvent 1 IN_CREATE 0 16)
              ltac:(evaluate) ltac:(evaluate) ltac:(evaluate) ltac:(evaluate)
              ltac:(evaluate) ltac:(evaluate) ltac:(evaluate) ltac:(evaluate)
              (tracked_constructor f_txt [3; 1; 2; 5]))
    as [s' [H1 [_ [_ [H4 [_ H6]]]]]].
  exists s'. split; [exact H1|]. split; [evaluate|]. split; [exact H4|].
  rewrite H6. evaluate.
Defined.

(** C5, the claim as stated fails: the kernel may refuse the new watch (the
    file can be gone again by the time the record is read), and then the
    create record, which has removed file watch 2, leaves no file watch at
    all instead of exactly one. *)
Lemma create_record_can_leave_no_file_watch :
  tracked (running 2 [-1]) /\
  watches TargetFile (trace (running 2 [-1])) = [2] /\
  exists s' : State,
    readEvents (record_bytes 1 IN_CREATE 0 f_txt_field) 32 (running 2 [-1])
    = Returns s' /\
    fileWatchDesc s' = -1 /\
    watches TargetFile (trace s') = [] /\
    List.length (watches TargetFile (trace s')) <> 1%nat.
Proof.
  split; [apply tracked_constructor|]. split; [evaluate|].
  eexists. split; [evaluate|]. split; [evaluate|]. split; evaluate.
Qed.

(** ** The completion handler *)

Lemma handler_posts_the_next_read (buf : list byte) (bt : Z) (s s' : State) :
  readEvents buf bt s = Returns s' ->
  monitorFilesystemEvent_handler false buf bt s
  = Returns (emit async_read_some s').
Proof.
  intros E. unfold monitorFilesystemEvent_handler. rewrite E. reflexivity.
Qed.

(** C2, on the code as it is. When the kernel refuses the new file watch
    that a create record for the target asks for, [readEvents] returns with
    no file watch, and the completion handler, which cannot tell that return
    from any other, posts the next read: the loop stays armed. *)
Theorem failed_rewatch_still_posts_the_next_read (buf : list byte)
    (bt : Z) (s : State) (ev : inotify_event) :
  bt < size_max ->
  memcpy_event buf 0 = Some ev ->
  wd ev = dirWatchDesc s ->
  len ev <> 0 ->
  iEventSize + len ev <= bt ->
  string_at buf iEventSize = Some (filename s) ->
  mask ev = IN_CREATE ->
  hd (-1) (kernel s) = -1 ->
  exists s' : State,
    readEvents buf bt s = Returns s' /\
    fileWatchDesc s' = -1 /\
    monitorFilesystemEvent_handler false buf bt s
    = Returns (emit async_read_some s') /\
    reads_posted (trace (emit async_read_some s')) = S (reads_posted (trace s)).
Proof.
  intros Hbt Hev Hwd Hlen Hfit Hname Hmask Hk.
  pose proof (memcpy_event_len_range _ _ _ Hev) as Hr.
  exists (rewatched s).
  destruct (rewatched_state s) as [R1 [_ [_ [_ R5]]]].
  rewrite Hk in R1, R5.
  assert (E : readEvents buf bt s = Returns (rewatched s)).
  { unfold readEvents.
    rewrite readEvents_loop_guard by (unfold iEventSize in *; lia).
    rewrite (readEvents_body_create buf bt 0 s ev)
      by (assumption || lia).
    rewrite Hk. reflexivity. }
  split; [exact E|]. split; [exact R1|]. split.
  - apply handler_posts_the_next_read, E.
  - simpl. rewrite R5, !reads_posted_app.
    destruct (live (fileWatchDesc s)); simpl; lia.
Qed.

Lemma failed_rewatch_still_posts_the_next_read_witness :
  exists s' : State,
    monitorFilesystemEvent_handler false create_delete_modify 80 (running 2 [-1])
    = Returns (emit async_read_some s') /\
    fileWatchDesc s' = -1 /\
    reads_posted (trace (emit async_read_some s')) = 2%nat.
Proof.
  destruct (failed_rewatch_still_posts_the_next_read
              create_delete_modify 80 (running 2 [-1]) (mkEvent 1 IN_CREATE 0 16)
              ltac:(evaluate) ltac:(evaluate) ltac:(evaluate) ltac:(evaluate)
              ltac:(evaluate) ltac:(evaluate) ltac:(evaluate) ltac:(evaluate))
    as [s' [_ [H2 [H3 H4]]]].
  exists s'. split; [exact H3|]. split; [exact H2|exact H4].
Defined.

(** ** The name of a directory record *)

Lemma string_at_terminated_field (buf : list byte) (index n : Z) :
  In x00 (name_field_at buf index n) ->
  string_at buf (index + iEventSize)
  = Some (until_nul (name_field_at buf index n)).
Proof.
  intros Hnul. unfold string_at.
  rewrite <- (firstn_skipn (Z.to_nat n) (skipn (Z.to_nat (index + iEventSize)) buf)).
  apply c_str_until_nul, Hnul.
Qed.




(** ** Directory records of another name *)

(** C6, as amended. A directory record whose name field holds its
    terminating NUL, as the kernel writes it, and whose name, the bytes of
    the field before that NUL, is not the target's is passed over: the pass
    leaves the state, and with it the trace of dispatched events and of
    watch calls, exactly as it was, and the loop goes on at the index just
    behind the record. *)
Theorem unrelated_directory_record_is_discarded (buf : list byte)
    (bt index : Z) (s : State) (ev : inotify_event) :
  0 <= index -> bt < size_max ->
  memcpy_event buf index = Some ev ->
  wd ev = dirWatchDesc s ->
  len ev <> 0 ->
  index + iEventSize + len ev <= bt ->
  In x00 (name_field_at buf index (len ev)) ->
  until_nul (name_field_at buf index (len ev)) <> filename s ->
  readEvents_body buf bt index s = Continue (index + iEventSize + len ev) s /\
  forall fuel : nat,
    readEvents_loop (S fuel) buf bt index s
    = readEvents_loop fuel buf bt (index + iEventSize + len ev) s.
Proof.
  intros Hi Hbt Hev Hwd Hlen Hfit Hnul Hne.
  apply (readEvents_body_other_name buf bt index s ev Hi Hbt Hev Hwd Hlen Hfit
           (until_nul (name_field_at buf index (len ev)))).
  - apply string_at_terminated_field, Hnul.
  - exact Hne.
Qed.

Lemma unrelated_directory_record_is_discarded_witness :
  readEvents (record_bytes 1 IN_DELETE 0 other_txt_field) 32 (running 2 [])
  = Returns (running 2 []).
Proof.
  unfold readEvents.
  rewrite (proj2 (unrelated_directory_record_is_discarded
                    (record_bytes 1 IN_DELETE 0 other_txt_field) 32 0
                    (running 2 [])
                    (mkEvent 1 IN_DELETE 0 16)
                    ltac:(evaluate) ltac:(evaluate) ltac:(evaluate)
                    ltac:(evaluate) ltac:(evaluate) ltac:(evaluate)
                    ltac:(vm_compute; tauto) ltac:(evaluate))).
  evaluate.
Defined.

(** C6, the claim as stated fails: the name field of this directory record
    is "f.tx", which is not the target "f.txt", and holds no NUL; the
    string the code reads runs on into the byte behind the field and is
    "f.txt", so the record is not passed over: its event is written and the
    file watch is registered. *)
Lemma unterminated_name_of_another_file_is_taken_for_the_target :
  memcpy_event unterminated_name 0 = Some (mkEvent 1 IN_CREATE 0 4) /\
  dirWatchDesc (running (-1) [7]) = 1 /\
  filename (running (-1) [7]) = list_byte_of_string "f.txt" /\
  until_nul (name_field_at unterminated_name 0 4) = list_byte_of_string "f.tx" /\
  until_nul (name_field_at unterminated_name 0 4) <> filename (running (-1) [7]) /\
  exists s' : State,
    readEvents_body unterminated_name 20 0 (running (-1) [7]) = Continue 20 s' /\
    dispatched (trace s')
    = [directory_event (list_byte_of_string "f.txt") (getEventString IN_CREATE)] /\
    rm_watch_calls (trace s') = [] /\
    watches TargetFile (trace s') = [7] /\
    fileWatchDesc s' = 7.
Proof.
  split; [evaluate|]. split; [evaluate|]. split; [evaluate|].
  split; [evaluate|]. split; [evaluate|].
  eexists. split; [evaluate|]. repeat split; evaluate.
Qed.

(** ** The loop against the specification's batch *)

Lemma readEvents_body_skipped (buf : list byte) (bt index : Z) (s : State)
    (ev : inotify_event) :
  0 <= index -> index + iEventSize + len ev < size_max ->
  memcpy_event buf index = Some ev ->
  wd ev = dirWatchDesc s ->
  len ev = 0 \/ index + iEventSize + len ev > bt ->
  readEvents_body buf bt index s = Continue (index + iEventSize + len ev) s.
Proof.
  intros Hi Hmax Hev Hwd Hskip.
  pose proof (memcpy_event_len_range _ _ _ Hev) as Hr.
  unfold iEventSize, size_max in *.
  unfold readEvents_body. rewrite Hev. cbv zeta. unfold iEventSize.
  rewrite (size_add_exact 16 (len ev)) by (unfold size_max; lia).
  rewrite (size_add_exact index 16) by (unfold size_max; lia).
  rewrite (size_add_exact index (16 + len ev)) by (unfold size_max; lia).
  rewrite (size_add_exact (index + 16) (len ev)) by (unfold size_max; lia).
  rewrite Hwd, Z.eqb_refl.
  replace (index + (16 + len ev)) with (index + 16 + len ev) by lia.
  destruct (Z.eqb_spec (len ev) 0) as [E|E]; [reflexivity|].
  destruct (Z.gtb_spec (index + 16 + len ev) bt) as [G|G]; [reflexivity|lia].
Qed.

Lemma readEvents_body_not_directory (buf : list byte) (bt index : Z)
    (s : State) (ev : inotify_event) :
  0 <= index -> index + iEventSize + len ev < size_max ->
  memcpy_event buf index = Some ev ->
  wd ev <> dirWatchDesc s ->
  readEvents_body buf bt index s
  = if wd ev =? fileWatchDesc s
    then Continue (index + iEventSize + len ev)
           (emit (cout (file_event (getEventString (int_of_uint32 (mask ev))))) s)
    else Continue (index + iEventSize + len ev) s.
Proof.
  intros Hi Hmax Hev Hwd.
  pose proof (memcpy_event_len_range _ _ _ Hev) as Hr.
  unfold iEventSize, size_max in *.
  unfold readEvents_body. rewrite Hev. cbv zeta. unfold iEventSize.
  rewrite (size_add_exact 16 (len ev)) by (unfold size_max; lia).
  rewrite (size_add_exact index (16 + len ev)) by (unfold size_max; lia).
  replace (index + (16 + len ev)) with (index + 16 + len ev) by lia.
  destruct (Z.eqb_spec (wd ev) (dirWatchDesc s)) as [E|_]; [contradiction|].
  reflexivity.
Qed.

(** One pass over a complete record does what the specification's step
    does with that record. *)
Lemma readEvents_body_complete_record (buf : list byte) (bt index : Z)
    (s : State) (r : RawRecord) :
  0 <= index -> bt < size_max ->
  memcpy_event buf index = Some (header r) ->
  name_field r = name_field_at buf index (len (header r)) ->
  len (header r) = 0 \/ In x00 (name_field r) ->
  index + iEventSize + len (header r) <= bt ->
  readEvents_body buf bt index s
  = let '(ok, s') := spec_step r s in
    if ok then Continue (index + iEventSize + len (header r)) s' else Return s'.
Proof.
  intros Hi Hbt Hev Hfield Hwf Hfit.
  pose proof (memcpy_event_len_range _ _ _ Hev) as Hr.
  unfold spec_step, classify, record_name.
  destruct (Z.eqb_spec (wd (header r)) (dirWatchDesc s)) as [Hd|Hd].
  - destruct (Z.eqb_spec (len (header r)) 0) as [Hz|Hz].
    + apply readEvents_body_skipped; auto. unfold size_max, iEventSize in *. lia.
    + destruct Hwf as [Hwf|Hwf]; [contradiction|].
      rewrite Hfield in Hwf.
      pose proof (string_at_terminated_field buf index (len (header r)) Hwf) as N.
      rewrite <- Hfield in N.
      rewrite (readEvents_body_named buf bt index s (header r)
                 Hi Hbt Hev Hd Hz Hfit (until_nul (name_field r)) N).
      cbv zeta. destruct (bytes_eqb (until_nul (name_field r)) (filename s));
        simpl negb; cbv iota; [|reflexivity].
      destruct (mask (header r) =? IN_CREATE).
      * destruct (addWatchOnFile _) as [[|] s2]; reflexivity.
      * destruct ((mask (header r) =? IN_DELETE) || (mask (header r) =? IN_MOVED_TO));
          reflexivity.
  - rewrite (readEvents_body_not_directory buf bt index s (header r)); auto.
    + destruct (wd (header r) =? fileWatchDesc s); reflexivity.
    + unfold size_max, iEventSize in *. lia.
Qed.

Lemma records_at_extent (buf : list byte) (rs : list RawRecord) :
  forall i j : Z,
    0 <= i -> records_at buf i rs j ->
    i + 16 * Z.of_nat (List.length rs) <= j /\
    (rs <> [] -> j <= Z.of_nat (List.length buf)).
Proof.
  induction rs as [|r rs IH]; intros i j Hi H; simpl in H.
  - subst j. simpl. split; [lia|]. intros K. contradiction.
  - destruct H as [Hev [_ [Hin [_ Hrest]]]].
    pose proof (memcpy_event_len_range _ _ _ Hev) as Hr.
    unfold iEventSize in *.
    destruct (IH (i + 16 + len (header r)) j ltac:(lia) Hrest) as [L U].
    split.
    + change (List.length (r :: rs)) with (S (List.length rs)). lia.
    + intros _. destruct rs as [|r' rs'].
      * simpl in Hrest. lia.
      * apply U. discriminate.
Qed.

(** The passes over the complete records of a buffer are the run of the
    specification over those records; the loop then stands at the index
    behind them, unless the run has ended in a fatal failure. *)
Lemma readEvents_loop_records (buf : list byte) (bt j : Z) (fuel : nat)
    (rs : list RawRecord) :
  forall (i : Z) (s : State),
    0 <= i -> j <= bt -> bt < size_max ->
    records_at buf i rs j ->
    readEvents_loop (List.length rs + fuel) buf bt i s
    = let '(ok, s') := spec_run rs s in
      if ok then readEvents_loop fuel buf bt j s' else Returns s'.
Proof.
  induction rs as [|r rs IH]; intros i s Hi Hj Hbt H.
  - simpl in H. subst j. reflexivity.
  - pose proof (records_at_extent buf (r :: rs) i j Hi H) as [_ U].
    simpl in H. destruct H as [Hev [Hfield [Hin [Hwf Hrest]]]].
    pose proof (memcpy_event_len_range _ _ _ Hev) as Hr.
    assert (Hi' : 0 <= i + iEventSize + len (header r))
      by (unfold iEventSize; lia).
    pose proof (records_at_extent buf rs _ j Hi' Hrest) as [L _].
    change (List.length (r :: rs) + fuel)%nat
      with (S (List.length rs + fuel)).
    rewrite readEvents_loop_guard by (unfold iEventSize in *; lia).
    rewrite (readEvents_body_complete_record buf bt i s r)
      by (auto; unfold iEventSize in *; lia).
    simpl spec_run.
    destruct (spec_step r s) as [[|] s1]; [|reflexivity].
    apply IH; assumption.
Qed.

(** The loop drops a truncated fragment that does not carry the handle of
    the file watch. *)
Lemma readEvents_loop_fragment (buf : list byte) (bt j : Z) (fuel : nat)
    (s : State) :
  0 <= j -> j <= bt -> bt < 2 ^ 63 ->
  unwatched_fragment buf j bt s ->
  (bt - j < iEventSize -> (1 <= fuel)%nat) ->
  (iEventSize <= bt - j -> (2 <= fuel)%nat) ->
  readEvents_loop fuel buf bt j s = Returns s.
Proof.
  intros Hj Hjb Hbt F F1 F2. unfold iEventSize in *.
  assert (Stop : forall (k : Z) (f : nat), 0 <= k < size_max - 16 -> bt < k + 16 ->
            readEvents_loop (S f) buf bt k s = Returns s).
  { intros k f Hk Hgt. simpl. unfold iEventSize.
    rewrite (size_add_exact k 16) by (unfold size_max in *; lia).
    destruct (Z.leb_spec (k + 16) bt) as [E|_]; [lia|reflexivity]. }
  unfold size_max in Stop.
  destruct (Z.lt_ge_cases (bt - j) 16) as [Short|Long].
  - destruct fuel as [|f]; [specialize (F1 Short); lia|].
    apply Stop; lia.
  - destruct F as [Short|[ev [Hev [Htr Hwd]]]]; unfold iEventSize in *; [lia|].
    pose proof (memcpy_event_len_range _ _ _ Hev) as Hr.
    destruct fuel as [|[|f]]; try (specialize (F2 Long); lia).
    rewrite readEvents_loop_guard by (unfold iEventSize, size_max; lia).
    assert (B : readEvents_body buf bt j s = Continue (j + 16 + len ev) s).
    { destruct (Z.eq_dec (wd ev) (dirWatchDesc s)) as [D|D].
      - apply readEvents_body_skipped; auto;
          unfold iEventSize, size_max; lia.
      - destruct Hwd as [Hwd|Hwd]; [contradiction|].
        rewrite (readEvents_body_not_directory buf bt j s ev); auto;
          [|unfold iEventSize, size_max; lia].
        destruct (Z.eqb_spec (wd ev) (fileWatchDesc s)) as [E|_];
          [contradiction|reflexivity]. }
    rewrite B. apply Stop; lia.
Qed.

(** C3, as amended. When the valid bytes of the buffer are N complete
    records followed by a truncated fragment (less than a header, or a
    header whose name field does not fit) and that fragment does not carry
    the handle of the file watch, [readEvents] returns, without undefined
    behaviour, the state that the specification's run over exactly those N
    records gives: the fragment adds nothing to it. *)
Theorem readEvents_runs_the_complete_records (buf : list byte) (bt j : Z)
    (rs : list RawRecord) (s : State) :
  records_at buf 0 rs j ->
  j <= bt -> bt < 2 ^ 63 ->
  unwatched_fragment buf j bt (spec_process rs s) ->
  readEvents buf bt s = Returns (spec_process rs s).
Proof.
  intros Hrs Hj Hbt F.
  destruct (records_at_extent buf rs 0 j ltac:(lia) Hrs) as [L U].
  assert (Hlen : (List.length rs <= List.length buf)%nat).
  { destruct rs as [|r rs']; [simpl; lia|].
    assert (j <= Z.of_nat (List.length buf)) by (apply U; discriminate). lia. }
  unfold readEvents.
  remember (S (List.length buf) - List.length rs)%nat as k eqn:Hk.
  replace (S (List.length buf)) with (List.length rs + k)%nat by lia.
  rewrite (readEvents_loop_records buf bt j k rs 0 s)
    by (auto; unfold size_max; lia).
  unfold spec_process in *.
  destruct (spec_run rs s) as [[|] s']; cbn [snd] in *; [|reflexivity].
  apply readEvents_loop_fragment; auto; try lia.
  intros Long. destruct F as [Short|[ev [Hev _]]]; [lia|].
  pose proof (memcpy_event_inside _ _ _ Hev). lia.
Qed.

Lemma readEvents_runs_the_complete_records_witness :
  readEvents create_modify_and_three_bytes 51 (running (-1) [5])
  = Returns (spec_process create_modify_records (running (-1) [5])) /\
  dispatched (trace (spec_process create_modify_records (running (-1) [5])))
  = [directory_event f_txt (getEventString IN_CREATE);
     file_event (getEventString IN_MODIFY)].
Proof.
  split; [|evaluate].
  apply (readEvents_runs_the_complete_records
           create_modify_and_three_bytes 51 48 create_modify_records
           (running (-1) [5])).
  - simpl. split; [evaluate|]. split; [evaluate|]. split; [evaluate|].
    split; [right; vm_compute; tauto|].
    split; [evaluate|]. split; [evaluate|]. split; [evaluate|].
    split; [left; reflexivity|reflexivity].
  - evaluate.
  - evaluate.
  - left. evaluate.
Defined.

(** C3, the claim as stated fails: these sixteen valid bytes are no complete
    record, only a header that announces a sixteen-byte name, and yet the
    loop, which checks the room for the name of directory records alone,
    dispatches the fragment as an event of the file watch. *)
Lemma file_scoped_fragment_is_dispatched :
  records_at file_scoped_fragment 0 [] 0 /\
  truncated_fragment file_scoped_fragment 0 16 /\
  memcpy_event file_scoped_fragment 0 = Some (mkEvent 2 IN_MODIFY 0 16) /\
  dispatched (trace (spec_process [] (running 2 []))) = [] /\
  exists s' : State,
    readEvents file_scoped_fragment 16 (running 2 []) = Returns s' /\
    dispatched (trace s') = [file_event (getEventString IN_MODIFY)] /\
    Returns s' <> Returns (spec_process [] (running 2 [])).
Proof.
  split; [reflexivity|]. split.
  - right. exists (mkEvent 2 IN_MODIFY 0 16). split; evaluate.
  - split; [evaluate|]. split; [evaluate|].
    eexists. split; [evaluate|]. split; evaluate.
Qed.

(** ** The bound on the passes is never reached *)

Lemma readEvents_body_continue (buf : list byte) (bt index : Z) (s : State)
    (index' : Z) (s' : State) :
  readEvents_body buf bt index s = Continue index' s' ->
  exists ev : inotify_event,
    memcpy_event buf index = Some ev /\
    index' = size_add index (size_add iEventSize (len ev)).
Proof.
  unfold readEvents_body.
  destruct (memcpy_event buf index) as [ev|]; [|discriminate].
  cbv zeta. intros H. exists ev. split; [reflexivity|].
  destruct (wd ev =? dirWatchDesc s).
  - destruct ((len ev =? 0) || _); [congruence|].
    destruct (string_at buf _) as [name|]; [|discriminate].
    destruct (negb (bytes_eqb name (filename s))); [congruence|].
    destruct (mask ev =? IN_CREATE).
    + destruct (addWatchOnFile _) as [[|] s2]; simpl in H; congruence.
    + destruct ((mask ev =? IN_DELETE) || (mask ev =? IN_MOVED_TO)); congruence.
  - destruct (wd ev =? fileWatchDesc s); congruence.
Qed.

Lemma readEvents_loop_enough_fuel (buf : list byte) (bt : Z) :
  Z.of_nat (List.length buf) < 2 ^ 63 ->
  forall (fuel : nat) (index : Z) (s : State),
    0 <= index ->
    Z.max 0 (Z.of_nat (List.length buf) - index) < 16 * Z.of_nat fuel ->
    finished (readEvents_loop fuel buf bt index s).
Proof.
  intros Hbuf. induction fuel as [|fuel IH]; intros index s Hi Hm; [lia|].
  simpl. destruct (size_add index iEventSize <=? bt); [|exact I].
  destruct (readEvents_body buf bt index s) as [i1 s1| |] eqn:B;
    [|exact I|exact I].
  destruct (readEvents_body_continue _ _ _ _ _ _ B) as [ev [Hev ->]].
  pose proof (memcpy_event_len_range _ _ _ Hev) as Hr.
  pose proof (memcpy_event_inside _ _ _ Hev) as Hin.
  unfold iEventSize.
  rewrite (size_add_exact 16 (len ev)) by (unfold size_max; lia).
  rewrite (size_add_exact index (16 + len ev)) by (unfold size_max; lia).
  apply IH; lia.
Qed.

(** [readEvents] comes to an end on every buffer that fits in memory,
    whatever it holds and whatever length is passed with it: it returns or
    it has read outside the buffer, and the bound on the passes is not
    what ends it. *)
Theorem readEvents_terminates (buf : list byte) (bt : Z) (s : State) :
  Z.of_nat (List.length buf) < 2 ^ 63 ->
  finished (readEvents buf bt s).
Proof.
  intros Hbuf. unfold readEvents.
  apply readEvents_loop_enough_fuel; [exact Hbuf|lia|lia].
Qed.

Lemma readEvents_terminates_witness :
  finished (readEvents create_delete_modify 80 (running 2 [5])).
Proof.
  apply (readEvents_terminates create_delete_modify 80 (running 2 [5])).
  evaluate.
Defined.

(** ** Invariant I1 over the life of the monitor *)

(** Invariant I1 holds when the constructor returns ([tracked_constructor])
    and is kept by every completed read, failed or not, whatever the buffer
    holds. *)
Theorem handler_keeps_invariant (ec : bool) (buf : list byte) (bt : Z)
    (s s' : State) :
  tracked s ->
  monitorFilesystemEvent_handler ec buf bt s = Returns s' ->
  tracked s'.
Proof.
  intros T. unfold monitorFilesystemEvent_handler, readEvents.
  destruct ec.
  - intros H. injection H as <-.
    unfold tracked in *. simpl. rewrite !watches_snoc. exact T.
  - destruct (readEvents_loop _ buf bt 0 s) as [s1| |] eqn:E; try discriminate.
    intros H. injection H as <-.
    pose proof (readEvents_loop_tracked _ _ _ _ _ _ T E) as T1.
    unfold tracked, monitorFilesystemEvent in *. simpl.
    rewrite !watches_snoc. exact T1.
Qed.

Lemma handler_keeps_invariant_witness :
  exists s' : State,
    monitorFilesystemEvent_handler false create_delete_modify 80 (running 2 [5])
    = Returns s' /\
    tracked s'.
Proof.
  eexists. split; [evaluate|].
  apply (handler_keeps_invariant false create_delete_modify 80 (running 2 [5])).
  - apply tracked_constructor.
  - evaluate.
Defined.

(** * Further properties of the code *)

(** ** What [readEvents] leaves alone *)

Lemma moved_file_watch_only_refl (s : State) : moved_file_watch_only s s.
Proof.
  unfold moved_file_watch_only. repeat split; try reflexivity.
  - exists []. rewrite app_nil_r. split; reflexivity.
  - exists []. reflexivity.
Qed.

Lemma moved_file_watch_only_trans (s1 s2 s3 : State) :
  moved_file_watch_only s1 s2 -> moved_file_watch_only s2 s3 ->
  moved_file_watch_only s1 s3.
Proof.
  intros [C1 [F1 [D1 [N1 [[tr1 [T1 E1]] [k1 K1]]]]]]
         [C2 [F2 [D2 [N2 [[tr2 [T2 E2]] [k2 K2]]]]]].
  unfold moved_file_watch_only.
  split; [congruence|]. split; [congruence|]. split; [congruence|].
  split; [congruence|]. split.
  - exists (tr1 ++ tr2). split.
    + rewrite T2, T1, app_assoc. reflexivity.
    + rewrite forallb_app, E1. rewrite F1 in E2. rewrite E2. reflexivity.
  - exists (k1 ++ k2). rewrite K1, K2, app_assoc. reflexivity.
Qed.

Lemma moved_file_watch_only_emit (s : State) (e : Effect) :
  readEvents_effect (inotifyFd s) e = true ->
  moved_file_watch_only s (emit e s).
Proof.
  intros H. unfold moved_file_watch_only. simpl.
  repeat split; try reflexivity.
  - exists [e]. simpl. rewrite H. split; reflexivity.
  - exists []. reflexivity.
Qed.

Lemma moved_file_watch_only_rmWatchOnFile (s : State) :
  moved_file_watch_only s (rmWatchOnFile s).
Proof.
  unfold rmWatchOnFile.
  destruct (negb (fileWatchDesc s =? -1)); [|apply moved_file_watch_only_refl].
  unfold moved_file_watch_only. simpl. repeat split; try reflexivity.
  - exists [cout remove_watcher_on_file;
            inotify_rm_watch (inotifyFd s) (fileWatchDesc s)].
    simpl. rewrite <- app_assoc, Z.eqb_refl. split; reflexivity.
  - exists []. reflexivity.
Qed.

Lemma moved_file_watch_only_addWatchOnFile (s : State) :
  moved_file_watch_only s (snd (addWatchOnFile s)).
Proof.
  destruct s as [c fd d f name tr k].
  unfold addWatchOnFile, kernel_return, moved_file_watch_only. simpl.
  destruct k as [|r k]; simpl.
  - repeat split; try reflexivity.
    + eexists. rewrite <- app_assoc. split; [reflexivity|].
      simpl. rewrite Z.eqb_refl. reflexivity.
    + exists []. reflexivity.
  - destruct (r =? -1); simpl; repeat split; try reflexivity;
      try (exists [r]; reflexivity);
      (eexists; rewrite <- app_assoc; split; [reflexivity|];
       simpl; rewrite Z.eqb_refl; reflexivity).
Qed.

Lemma readEvents_body_moves_file_watch_only (buf : list byte) (bt index : Z)
    (s : State) :
  match readEvents_body buf bt index s with
  | Continue _ s' => moved_file_watch_only s s'
  | Return s' => moved_file_watch_only s s'
  | Undefined => True
  end.
Proof.
  unfold readEvents_body.
  destruct (memcpy_event buf index) as [ev|]; [|exact I]. cbv zeta.
  destruct (wd ev =? dirWatchDesc s).
  - destruct ((len ev =? 0) || _); [apply moved_file_watch_only_refl|].
    destruct (string_at buf _) as [name|]; [|exact I].
    destruct (negb (bytes_eqb name (filename s)));
      [apply moved_file_watch_only_refl|].
    set (s1 := emit _ s).
    assert (M1 : moved_file_watch_only s s1)
      by (apply moved_file_watch_only_emit; reflexivity).
    assert (M2 : moved_file_watch_only s (rmWatchOnFile s1))
      by (eapply moved_file_watch_only_trans;
          [exact M1|apply moved_file_watch_only_rmWatchOnFile]).
    destruct (mask ev =? IN_CREATE).
    + pose proof (moved_file_watch_only_addWatchOnFile (rmWatchOnFile s1)) as M3.
      destruct (addWatchOnFile (rmWatchOnFile s1)) as [ok s2]. simpl in M3.
      destruct (negb ok); eapply moved_file_watch_only_trans; eassumption.
    + destruct ((mask ev =? IN_DELETE) || (mask ev =? IN_MOVED_TO)); assumption.
  - destruct (wd ev =? fileWatchDesc s).
    + apply moved_file_watch_only_emit. reflexivity.
    + apply moved_file_watch_only_refl.
Qed.

Lemma readEvents_loop_moves_file_watch_only (fuel : nat) (buf : list byte)
    (bt : Z) :
  forall (index : Z) (s s' : State),
    readEvents_loop fuel buf bt index s = Returns s' ->
    moved_file_watch_only s s'.
Proof.
  induction fuel as [|fuel IH]; intros index s s'; simpl; [discriminate|].
  destruct (size_add index iEventSize <=? bt).
  - pose proof (readEvents_body_moves_file_watch_only buf bt index s) as B.
    destruct (readEvents_body buf bt index s) as [i1 s1|s1|].
    + intros H. eapply moved_file_watch_only_trans; [exact B|].
      eapply IH. exact H.
    + intros H. injection H as <-. exact B.
    + discriminate.
  - intros H. injection H as <-. apply moved_file_watch_only_refl.
Qed.

Lemma readEvents_effect_posts_no_read (fd : Z) (tr : list Effect) :
  forallb (readEvents_effect fd) tr = true -> reads_posted tr = 0%nat.
Proof.
  induction tr as [|e tr IH]; intros H; [reflexivity|].
  simpl in H. apply andb_true_iff in H as [He Ht].
  destruct e; simpl in *; try discriminate; auto.
Qed.

(** X3. Whatever the buffer holds, [readEvents] touches the file watch and
    nothing else: the descriptor object, the channel, the directory watch
    and the file name are as before; what it has done to the outside is
    only writing lines of events and of the file watch, releasing a watch
    and registering the target file on the same channel; it posts no read,
    never closes the channel and never registers the directory; and of the
    kernel's answers it has only taken some from the front. *)
Theorem readEvents_moves_the_file_watch_only (buf : list byte) (bt : Z)
    (s s' : State) :
  readEvents buf bt s = Returns s' ->
  inotifyConn s' = inotifyConn s /\
  inotifyFd s' = inotifyFd s /\
  dirWatchDesc s' = dirWatchDesc s /\
  filename s' = filename s /\
  (exists tr : list Effect,
     trace s' = trace s ++ tr /\
     forallb (readEvents_effect (inotifyFd s)) tr = true /\
     reads_posted tr = 0%nat) /\
  (exists answers : list Z, kernel s = answers ++ kernel s').
Proof.
  intros H. unfold readEvents in H.
  apply readEvents_loop_moves_file_watch_only in H.
  destruct H as [C [F [D [N [[tr [T E]] K]]]]].
  repeat (split; [assumption|]). split; [|exact K].
  exists tr. split; [exact T|]. split; [exact E|].
  apply (readEvents_effect_posts_no_read _ _ E).
Qed.

Lemma readEvents_moves_the_file_watch_only_witness :
  exists s' : State,
    readEvents create_delete_modify 80 (running 2 [5]) = Returns s' /\
    dirWatchDesc s' = 1 /\
    fileWatchDesc s' = -1 /\
    reads_posted (trace s') = 1%nat.
Proof.
  eexists. split; [evaluate|].
  destruct (readEvents_moves_the_file_watch_only create_delete_modify 80
              (running 2 [5]) _ ltac:(evaluate)) as [_ [_ [D _]]].
  split; [exact D|]. split; evaluate.
Defined.

(** ** One read at a time *)

(** X4. The completion handler posts exactly one read when the read it
    completes succeeded, and posts it last, after the whole batch has been
    gone through; when the read failed it posts none, writes the error and
    changes nothing else, so the loop has stopped. *)
Theorem handler_posts_one_read_after_the_batch (ec : bool) (buf : list byte)
    (bt : Z) (s s' : State) :
  monitorFilesystemEvent_handler ec buf bt s = Returns s' ->
  reads_posted (trace s')
  = (reads_posted (trace s) + (if ec then 0 else 1))%nat /\
  (ec = false ->
   exists tr : list Effect,
     trace s' = trace s ++ tr ++ [async_read_some] /\
     reads_posted tr = 0%nat) /\
  (ec = true -> s' = emit (cerr callback_error) s).
Proof.
  unfold monitorFilesystemEvent_handler. destruct ec.
  - intros H. injection H as <-. simpl.
    rewrite reads_posted_app. simpl.
    split; [lia|]. split; [discriminate|reflexivity].
  - destruct (readEvents buf bt s) as [s1| |] eqn:E; try discriminate.
    intros H. injection H as <-.
    unfold readEvents in E.
    apply readEvents_loop_moves_file_watch_only in E.
    destruct E as [_ [F [_ [_ [[tr [T E]] _]]]]].
    pose proof (readEvents_effect_posts_no_read _ _ E) as R.
    unfold monitorFilesystemEvent. simpl. rewrite T.
    rewrite !reads_posted_app, R. simpl.
    split; [lia|]. split; [|discriminate].
    intros _. exists tr. rewrite <- app_assoc. split; [reflexivity|exact R].
Qed.

Lemma handler_posts_one_read_after_the_batch_witness :
  exists s' : State,
    monitorFilesystemEvent_handler false create_delete_modify 80 (running 2 [5])
    = Returns s' /\
    reads_posted (trace s') = 2%nat.
Proof.
  eexists. split; [evaluate|].
  destruct (handler_posts_one_read_after_the_batch false create_delete_modify 80
              (running 2 [5]) _ ltac:(evaluate)) as [R _].
  exact R.
Defined.

(** ** What the constructor leaves *)

(** X5. Whatever the kernel answers, the constructor posts a read exactly
    when both [inotify_init1] and the directory watch succeeded; the answer
    for the file watch plays no part in that. When [inotify_init1] fails,
    no watch is asked for at all. The members hold what the kernel
    returned as far as the constructor got. *)
Theorem constructor_posts_a_read_iff_channel_and_directory (name : list byte)
    (script : list Z) :
  let fd := nth 0 script (-1) in
  let d := nth 1 script (-1) in
  let f := nth 2 script (-1) in
  let s := constructor name script in
  reads_posted (trace s) = (if live fd && live d then 1 else 0)%nat /\
  inotifyConn s = (if live fd && live d then Some (Some fd) else Some None) /\
  inotifyFd s = fd /\
  dirWatchDesc s = (if live fd then d else -1) /\
  fileWatchDesc s = (if live fd && live d then f else -1) /\
  filename s = name /\
  (if live fd then True else trace s = [inotify_init1 (-1)]).
Proof.
  unfold constructor, addWatchOnDir, addWatchOnFile, kernel_return.
  destruct script as [|fd [|d [|f later]]]; simpl;
    repeat (unfold live;
            match goal with
            | |- context [?a =? ?b] => destruct (Z.eqb_spec a b); simpl
            end);
    try contradiction; subst; repeat split; reflexivity.
Qed.

(** ** No watch outlives the monitor *)

Lemma watches_app (p : Path) (tr1 tr2 : list Effect) :
  watches p (tr1 ++ tr2) = fold_left (track p) tr2 (watches p tr1).
Proof. unfold watches. apply fold_left_app. Qed.

Lemma readEvents_effects_register_no_directory (fd : Z) (tr : list Effect) :
  forallb (readEvents_effect fd) tr = true ->
  forall ws : list Z, incl (fold_left (track ParentDirectory) tr ws) ws.
Proof.
  induction tr as [|e tr IH]; intros H ws; simpl; [apply incl_refl|].
  simpl in H. apply andb_true_iff in H as [He Ht].
  apply (incl_tran (IH Ht _)).
  destruct e as [| fd' [|] m r | fd' w | | | | l | l]; simpl in *;
    try discriminate; try apply incl_refl.
  intros x Hx. apply filter_In in Hx. tauto.
Qed.

Lemma directory_watch_held_constructor (name : list byte) (script : list Z) :
  directory_watch_held (constructor name script).
Proof.
  unfold directory_watch_held, constructor, addWatchOnDir, addWatchOnFile,
    kernel_return, watches, handles.
  destruct script as [|fd [|d [|f later]]]; simpl;
    repeat (unfold live;
            match goal with
            | |- context [?a =? ?b] => destruct (Z.eqb_spec a b); simpl
            end);
    try contradiction; first [apply incl_refl | apply incl_nil_l].
Qed.

Lemma directory_watch_held_handler (ec : bool) (buf : list byte) (bt : Z)
    (s s' : State) :
  directory_watch_held s ->
  monitorFilesystemEvent_handler ec buf bt s = Returns s' ->
  directory_watch_held s'.
Proof.
  unfold monitorFilesystemEvent_handler, directory_watch_held. intros Hs.
  destruct ec.
  - intros H. injection H as <-. simpl. rewrite watches_snoc. exact Hs.
  - destruct (readEvents buf bt s) as [s1| |] eqn:E; try discriminate.
    intros H. injection H as <-.
    unfold readEvents in E.
    apply readEvents_loop_moves_file_watch_only in E.
    destruct E as [_ [_ [D [_ [[tr [T E]] _]]]]].
    unfold monitorFilesystemEvent. simpl.
    rewrite watches_snoc, T, watches_app, D. simpl.
    eapply incl_tran; [|exact Hs].
    apply (readEvents_effects_register_no_directory _ _ E).
Qed.

Lemma handler_tracked (ec : bool) (buf : list byte) (bt : Z) (s s' : State) :
  tracked s ->
  monitorFilesystemEvent_handler ec buf bt s = Returns s' ->
  tracked s'.
Proof.
  intros T. unfold monitorFilesystemEvent_handler, readEvents.
  destruct ec.
  - intros H. injection H as <-.
    unfold tracked in *. simpl. rewrite !watches_snoc. exact T.
  - destruct (readEvents_loop _ buf bt 0 s) as [s1| |] eqn:E; try discriminate.
    intros H. injection H as <-.
    pose proof (readEvents_loop_tracked _ _ _ _ _ _ T E) as T1.
    unfold tracked, monitorFilesystemEvent in *. simpl.
    rewrite !watches_snoc. exact T1.
Qed.

Lemma reachable_keeps_watches (s : State) :
  reachable s -> tracked s /\ directory_watch_held s.
Proof.
  induction 1 as [name script|ec buf bt s s' _ [T D] H].
  - split; [apply tracked_constructor|apply directory_watch_held_constructor].
  - split; [exact (handler_tracked _ _ _ _ _ T H)
           |exact (directory_watch_held_handler _ _ _ _ _ D H)].
Qed.

Lemma filter_out_held (w : Z) (ws : list Z) :
  incl ws [w] -> filter (fun x => negb (x =? w)) ws = [].
Proof.
  induction ws as [|x ws IH]; intros H; [reflexivity|].
  simpl. assert (x = w) as ->.
  { assert (In x [w]) as [E|[]] by (apply H; left; reflexivity).
    symmetry. exact E. }
  rewrite Z.eqb_refl. simpl. apply IH.
  intros y Hy. apply H. right. exact Hy.
Qed.

(** X6. Every watch the monitor has registered in its life is released by
    its destructor: after the constructor and any number of completed
    reads, whatever the kernel answered and whatever the buffers held, the
    destructor leaves no registration outstanding for the directory or for
    the file, resets both handles and closes the channel as its last
    call. *)
Theorem destructor_releases_every_watch (s : State) :
  reachable s ->
  watches ParentDirectory (trace (destructor s)) = [] /\
  watches TargetFile (trace (destructor s)) = [] /\
  dirWatchDesc (destructor s) = -1 /\
  fileWatchDesc (destructor s) = -1 /\
  exists tr : list Effect,
    trace (destructor s) = trace s ++ tr ++ [close (inotifyFd s)].
Proof.
  intros R. destruct (reachable_keeps_watches s R) as [[_ Tf] Td].
  unfold directory_watch_held in Td.
  destruct s as [c fd d f name tr k]. simpl in *.
  unfold destructor, rmWatchOnDir, rmWatchOnFile, handles, live in *. simpl.
  destruct (Z.eqb_spec d (-1)) as [Ed|Ed]; simpl in *;
    destruct (Z.eqb_spec f (-1)) as [Ef|Ef]; simpl in *;
    rewrite ?watches_snoc; simpl; rewrite ?watches_snoc; simpl;
    rewrite ?watches_snoc; simpl; rewrite ?watches_snoc; simpl;
    rewrite ?Tf; simpl.
  - split; [apply incl_l_nil, Td|].
    repeat (split; [first [reflexivity | assumption]|]).
    exists []. reflexivity.
  - rewrite (incl_l_nil Td). simpl. rewrite Z.eqb_refl. simpl.
    repeat (split; [first [reflexivity | assumption]|]).
    exists [cout remove_watcher_on_file; inotify_rm_watch fd f].
    rewrite <- !app_assoc. reflexivity.
  - rewrite (filter_out_held d _ Td).
    repeat (split; [first [reflexivity | assumption]|]).
    exists [cout remove_watcher_on_directory; inotify_rm_watch fd d].
    rewrite <- !app_assoc. reflexivity.
  - rewrite (filter_out_held d _ Td). simpl.
    split; [reflexivity|]. split.
    + destruct (negb (f =? d)); simpl; rewrite ?Z.eqb_refl; reflexivity.
    + repeat (split; [first [reflexivity | assumption]|]).
      exists [cout remove_watcher_on_directory; inotify_rm_watch fd d;
              cout remove_watcher_on_file; inotify_rm_watch fd f].
      rewrite <- !app_assoc. reflexivity.
Qed.

Lemma destructor_releases_every_watch_witness :
  exists s : State,
    monitorFilesystemEvent_handler false create_delete_modify 80 (running 2 [5])
    = Returns s /\
    watches ParentDirectory (trace s) = [1] /\
    watches ParentDirectory (trace (destructor s)) = [] /\
    watches TargetFile (trace (destructor s)) = [].
Proof.
  eexists. split; [evaluate|]. split; [evaluate|].
  destruct (destructor_releases_every_watch _
              (reachable_handler false create_delete_modify 80 (running 2 [5]) _
                 (reachable_constructor f_txt [3; 1; 2; 5]) ltac:(evaluate)))
    as [A [B _]].
  split; [exact A|exact B].
Defined.

(** ** Records of the file watch *)

(** X7. A record whose watch descriptor is the one held in [fileWatchDesc],
    and not the directory's, is reported as an event of the file whatever
    its mask and whatever name length it declares: no name is read, no fit
    is checked, no watch is touched, and the loop goes on behind the
    declared length. The comparison does not set the sentinel apart: while
    there is no file watch, a record with descriptor -1 (the kernel's
    queue-overflow record) is reported as an event of the file. *)
Theorem record_of_the_file_handle_is_reported (fuel : nat) (buf : list byte)
    (bt index : Z) (s : State) (ev : inotify_event) :
  0 <= index -> bt < 2 ^ 63 -> index + iEventSize <= bt ->
  memcpy_event buf index = Some ev ->
  wd ev = fileWatchDesc s ->
  wd ev <> dirWatchDesc s ->
  readEvents_loop (S fuel) buf bt index s
  = readEvents_loop fuel buf bt (index + iEventSize + len ev)
      (emit (cout (file_event (getEventString (int_of_uint32 (mask ev))))) s).
Proof.
  intros Hi Hbt Hg Hev Hf Hd.
  pose proof (memcpy_event_len_range _ _ _ Hev) as Hr.
  rewrite readEvents_loop_guard by (unfold size_max; lia).
  rewrite (readEvents_body_not_directory buf bt index s ev)
    by (auto; unfold size_max, iEventSize in *; lia).
  rewrite Hf, Z.eqb_refl. reflexivity.
Qed.

Lemma record_of_the_file_handle_is_reported_witness :
  memcpy_event queue_overflow_record 0 = Some (mkEvent (-1) IN_Q_OVERFLOW 0 0) /\
  fileWatchDesc (running (-1) []) = -1 /\
  exists s' : State,
    readEvents queue_overflow_record 16 (running (-1) []) = Returns s' /\
    dispatched (trace s') = [file_event EmptyString].
Proof.
  split; [evaluate|]. split; [evaluate|].
  eexists. split.
  - unfold readEvents.
    rewrite (record_of_the_file_handle_is_reported _ queue_overflow_record 16 0
               (running (-1) []) (mkEvent (-1) IN_Q_OVERFLOW 0 0)
               ltac:(evaluate) ltac:(evaluate) ltac:(evaluate) ltac:(evaluate)
               ltac:(evaluate) ltac:(evaluate)).
    evaluate.
  - evaluate.
Defined.

(** ** The masks that move the file watch *)

(** X8. Of the directory records that name the target, only those whose
    mask is exactly [IN_CREATE], [IN_DELETE] or [IN_MOVED_TO] touch the file
    watch. A delete record writes the event and removes the file watch (no
    call when there is none). A record with any other mask, such as a
    create or delete that carries the [IN_ISDIR] flag, writes the event and
    changes nothing else: no watch call, no answer taken from the kernel. *)
Theorem only_three_masks_move_the_file_watch (buf : list byte) (bt index : Z)
    (s : State) (ev : inotify_event) :
  0 <= index -> bt < size_max ->
  memcpy_event buf index = Some ev ->
  wd ev = dirWatchDesc s ->
  len ev <> 0 ->
  index + iEventSize + len ev <= bt ->
  string_at buf (index + iEventSize) = Some (filename s) ->
  let reported :=
    emit (cout (directory_event (filename s)
                  (getEventString (int_of_uint32 (mask ev))))) s in
  (mask ev = IN_DELETE ->
   readEvents_body buf bt index s
   = Continue (index + iEventSize + len ev) (rmWatchOnFile reported) /\
   fileWatchDesc (rmWatchOnFile reported) = -1 /\
   rm_watch_calls (trace (rmWatchOnFile reported))
   = rm_watch_calls (trace s) ++ handles (fileWatchDesc s)) /\
  (mask ev <> IN_CREATE -> mask ev <> IN_DELETE -> mask ev <> IN_MOVED_TO ->
   readEvents_body buf bt index s
   = Continue (index + iEventSize + len ev) reported).
Proof.
  intros Hi Hbt Hev Hwd Hlen Hfit Hname reported. subst reported.
  rewrite (readEvents_body_named buf bt index s ev Hi Hbt Hev Hwd Hlen Hfit
             (filename s) Hname).
  cbv zeta. rewrite bytes_eqb_refl. simpl negb. cbv iota. split.
  - intros Hmask. rewrite Hmask.
    change (IN_DELETE =? IN_CREATE) with false.
    change (IN_DELETE =? IN_DELETE) with true. cbv iota. simpl orb. cbv iota.
    split; [reflexivity|]. split; [apply rmWatchOnFile_fileWatchDesc|].
    rewrite rmWatchOnFile_trace, rm_watch_calls_app. simpl.
    rewrite rm_watch_calls_app. simpl. rewrite app_nil_r.
    unfold handles. destruct (live (fileWatchDesc s)); reflexivity.
  - intros Hc Hd Hm.
    destruct (Z.eqb_spec (mask ev) IN_CREATE) as [E|_]; [contradiction|].
    destruct (Z.eqb_spec (mask ev) IN_DELETE) as [E|_]; [contradiction|].
    destruct (Z.eqb_spec (mask ev) IN_MOVED_TO) as [E|_]; [contradiction|].
    reflexivity.
Qed.

Lemma only_three_masks_move_the_file_watch_witness :
  exists s' : State,
    readEvents_body (record_bytes 1 (IN_CREATE + IN_ISDIR) 0 f_txt_field) 32 0
      (running (-1) [7])
    = Continue 32 s' /\
    fileWatchDesc s' = -1 /\
    kernel s' = [7] /\
    dispatched (trace s') = [directory_event f_txt EmptyString].
Proof.
  eexists. split.
  - apply (only_three_masks_move_the_file_watch
             (record_bytes 1 (IN_CREATE + IN_ISDIR) 0 f_txt_field) 32 0
             (running (-1) [7]) (mkEvent 1 (IN_CREATE + IN_ISDIR) 0 16)
             ltac:(evaluate) ltac:(evaluate) ltac:(evaluate) ltac:(evaluate)
             ltac:(evaluate) ltac:(evaluate) ltac:(evaluate));
      evaluate.
  - split; [evaluate|]. split; evaluate.
Defined.

(** ** Descriptions name their event *)

Lemma getEventString_injective (m1 m2 : Z) :
  getEventString m1 = getEventString m2 ->
  getEventString m1 <> EmptyString ->
  m1 = m2.
Proof.
  unfold getEventString.
  repeat match goal with
         | |- context [m1 =? ?c] => destruct (Z.eqb_spec m1 c) as [->|_]
         end;
    repeat match goal with
           | |- context [m2 =? ?c] => destruct (Z.eqb_spec m2 c) as [->|_]
           end;
    intros E N; first [reflexivity | discriminate E | contradiction].
Qed.

(** X9. The descriptions are pairwise different: the description of one of
    the twelve masks is the description of no other value, so a description
    that is not empty tells which event it stands for. *)
Theorem getEventString_tells_the_mask (m1 m2 : Z) :
  In m1 known_event_masks ->
  m1 <> m2 ->
  getEventString m1 <> getEventString m2.
Proof.
  intros Hin Hne E. apply Hne.
  apply (getEventString_injective m1 m2 E).
  simpl in Hin.
  repeat (destruct Hin as [Hin|Hin]; [subst m1; discriminate|]).
  contradiction.
Qed.

Lemma getEventString_tells_the_mask_witness :
  getEventString IN_MOVED_FROM <> getEventString IN_MOVED_TO /\
  getEventString IN_CREATE <> getEventString (IN_CREATE + IN_ISDIR).
Proof.
  split.
  - apply (getEventString_tells_the_mask IN_MOVED_FROM IN_MOVED_TO);
      [simpl; tauto|evaluate].
  - apply (getEventString_tells_the_mask IN_CREATE (IN_CREATE + IN_ISDIR));
      [simpl; tauto|evaluate].
Defined.

(** ** A whole batch *)

Lemma readEvents_whole_batch (buf : list byte) (bt : Z) (rs : list RawRecord)
    (s : State) :
  records_at buf 0 rs bt -> bt < 2 ^ 63 ->
  readEvents buf bt s = Returns (spec_process rs s).
Proof.
  intros Hrs Hbt.
  destruct (records_at_extent buf rs 0 bt ltac:(lia) Hrs) as [L U].
  assert (Hlen : (List.length rs <= List.length buf)%nat).
  { destruct rs as [|r rs']; [simpl; lia|].
    assert (bt <= Z.of_nat (List.length buf)) by (apply U; discriminate). lia. }
  unfold readEvents.
  remember (S (List.length buf) - List.length rs)%nat as k eqn:Hk.
  replace (S (List.length buf)) with (List.length rs + k)%nat by lia.
  rewrite (readEvents_loop_records buf bt bt k rs 0 s)
    by (auto; unfold size_max; lia).
  unfold spec_process.
  destruct (spec_run rs s) as [[|] s']; cbn [snd]; [|reflexivity].
  apply readEvents_loop_fragment; try lia.
  - left. unfold iEventSize. lia.
  - unfold iEventSize. lia.
Qed.

Lemma records_at_of_prefix (buf buf' : list byte) (j : Z)
    (rs : list RawRecord) :
  firstn (Z.to_nat j) buf' = firstn (Z.to_nat j) buf ->
  forall i : Z, 0 <= i -> records_at buf i rs j -> records_at buf' i rs j.
Proof.
  intros P. induction rs as [|r rs IH]; intros i Hi H; simpl in *; [exact H|].
  destruct H as [Hev [Hfield [Hin [Hwf Hrest]]]].
  pose proof (memcpy_event_len_range _ _ _ Hev) as Hr.
  assert (Hi' : 0 <= i + iEventSize + len (header r))
    by (unfold iEventSize; lia).
  destruct (records_at_extent buf rs _ j Hi' Hrest) as [L _].
  unfold iEventSize in *.
  assert (Hlen : i + 16 + len (header r) <= Z.of_nat (List.length buf')).
  { assert (E : List.length (firstn (Z.to_nat j) buf')
                = List.length (firstn (Z.to_nat j) buf)) by (rewrite P; reflexivity).
    rewrite !length_firstn in E. lia. }
  split; [|split; [|split; [exact Hlen|split; [exact Hwf|apply IH; assumption]]]].
  - rewrite <- Hev. unfold memcpy_event.
    rewrite (slice_of_prefix buf buf' (Z.to_nat i) 16 (Z.to_nat j)) by (lia || exact P).
    reflexivity.
  - rewrite Hfield. unfold name_field_at, iEventSize. symmetry.
    apply (slice_of_prefix buf buf' _ _ (Z.to_nat j)); [lia|exact P].
Qed.

(** X10. The bytes that an earlier read has left in the buffer play no
    part: when the valid bytes are complete records (a name field that is
    not empty holding its terminating NUL), [readEvents] gives the same
    result on every buffer that holds those valid bytes, whatever follows
    them and however long the buffer is. *)
Theorem readEvents_reads_the_valid_bytes_only (buf buf' : list byte) (bt : Z)
    (rs : list RawRecord) (s : State) :
  records_at buf 0 rs bt -> bt < 2 ^ 63 ->
  firstn (Z.to_nat bt) buf' = firstn (Z.to_nat bt) buf ->
  readEvents buf' bt s = readEvents buf bt s /\
  readEvents buf bt s = Returns (spec_process rs s).
Proof.
  intros Hrs Hbt P.
  pose proof (records_at_of_prefix buf buf' bt rs P 0 ltac:(lia) Hrs) as Hrs'.
  rewrite (readEvents_whole_batch buf' bt rs s Hrs' Hbt).
  rewrite (readEvents_whole_batch buf bt rs s Hrs Hbt).
  split; reflexivity.
Qed.

Lemma readEvents_reads_the_valid_bytes_only_witness :
  readEvents (create_modify ++ unterminated_name) 48 (running (-1) [5])
  = readEvents create_modify 48 (running (-1) [5]) /\
  readEvents create_modify 48 (running (-1) [5])
  = Returns (spec_process create_modify_records (running (-1) [5])).
Proof.
  apply (readEvents_reads_the_valid_bytes_only create_modify
           (create_modify ++ unterminated_name) 48 create_modify_records
           (running (-1) [5])).
  - simpl. split; [evaluate|]. split; [evaluate|]. split; [evaluate|].
    split; [right; vm_compute; tauto|].
    split; [evaluate|]. split; [evaluate|]. split; [evaluate|].
    split; [left; reflexivity|reflexivity].
  - evaluate.
  - evaluate.
Defined.

(** ** Records of watches the monitor does not hold *)

Lemma spec_run_unknown (rs : list RawRecord) (s : State) :
  Forall (fun r => wd (header r) <> dirWatchDesc s /\
                   wd (header r) <> fileWatchDesc s) rs ->
  spec_run rs s = (true, s).
Proof.
  induction 1 as [|r rs [Hd Hf] _ IH]; simpl; [reflexivity|].
  unfold spec_step, classify.
  destruct (Z.eqb_spec (wd (header r)) (dirWatchDesc s)); [contradiction|].
  destruct (Z.eqb_spec (wd (header r)) (fileWatchDesc s)); [contradiction|].
  exact IH.
Qed.

(** X11. Records whose watch descriptor is neither the directory's nor
    the file's, such as those of a watch that has been removed, are passed
    over: a batch of complete records of such descriptors, empty or not,
    leaves the state as it was, with nothing reported and no watch call. *)
Theorem records_of_other_watches_are_passed_over (buf : list byte) (bt : Z)
    (rs : list RawRecord) (s : State) :
  records_at buf 0 rs bt -> bt < 2 ^ 63 ->
  Forall (fun r => wd (header r) <> dirWatchDesc s /\
                   wd (header r) <> fileWatchDesc s) rs ->
  readEvents buf bt s = Returns s.
Proof.
  intros Hrs Hbt Hu.
  rewrite (readEvents_whole_batch buf bt rs s Hrs Hbt).
  unfold spec_process. rewrite (spec_run_unknown rs s Hu). reflexivity.
Qed.

Lemma records_of_other_watches_are_passed_over_witness :
  readEvents stale_records 48 (running 2 [5]) = Returns (running 2 [5]) /\
  readEvents [] 0 (running 2 [5]) = Returns (running 2 [5]).
Proof.
  split.
  - apply (records_of_other_watches_are_passed_over stale_records 48
             [ mkRecord (mkEvent 9 IN_DELETE 0 16) f_txt_field;
               mkRecord (mkEvent 4 IN_MODIFY 0 0) [] ]).
    + simpl. split; [evaluate|]. split; [evaluate|]. split; [evaluate|].
      split; [right; vm_compute; tauto|].
      split; [evaluate|]. split; [evaluate|]. split; [evaluate|].
      split; [left; reflexivity|reflexivity].
    + evaluate.
    + repeat constructor; evaluate.
  - apply (records_of_other_watches_are_passed_over [] 0 []).
    + reflexivity.
    + evaluate.
    + constructor.
Defined.

(** ** The layout of a header *)

Lemma Z_of_byte_of_Z (z : Z) : Z_of_byte (byte_of_Z z) = z mod 256.
Proof.
  unfold Z_of_byte, byte_of_Z.
  pose proof (Z.mod_pos_bound z 256 ltac:(lia)) as B.
  destruct (Byte.of_N (Z.to_N (z mod 256))) as [b|] eqn:E.
  - apply Byte.to_of_N in E. rewrite E. apply Z2N.id. lia.
  - apply Byte.of_N_None_iff in E. lia.
Qed.

Lemma le_uint32_byte_of_Z (z : Z) :
  le_uint32 (byte_of_Z z) (byte_of_Z (z / 2 ^ 8)) (byte_of_Z (z / 2 ^ 16))
    (byte_of_Z (z / 2 ^ 24))
  = z mod 2 ^ 32.
Proof.
  unfold le_uint32. rewrite !Z_of_byte_of_Z.
  change (2 ^ 8) with 256. change (2 ^ 16) with 65536.
  change (2 ^ 24) with 16777216. change (2 ^ 32) with 4294967296.
  Z.div_mod_to_equations. lia.
Qed.

Lemma skipn_behind (l1 l2 : list byte) (n : nat) :
  skipn (List.length l1 + n) (l1 ++ l2) = skipn n l2.
Proof.
  induction l1 as [|x l1 IH]; simpl; [reflexivity|exact IH].
Qed.

(** X12. A header laid out as the kernel lays it out, the descriptor, the
    mask, the cookie and the name length as four little-endian 32-bit
    values of which the first is signed, is read back by the loop as the
    same four values, at whatever index of the buffer it starts, and the
    bytes of its name field are those that follow it. *)
Theorem memcpy_event_reads_the_kernel_layout (before after name : list byte)
    (w m c : Z) :
  - 2 ^ 31 <= w < 2 ^ 31 ->
  0 <= m < 2 ^ 32 ->
  0 <= c < 2 ^ 32 ->
  Z.of_nat (List.length name) < 2 ^ 32 ->
  let buf := before ++ record_bytes w m c name ++ after in
  let index := Z.of_nat (List.length before) in
  memcpy_event buf index = Some (mkEvent w m c (Z.of_nat (List.length name))) /\
  name_field_at buf index (Z.of_nat (List.length name)) = name.
Proof.
  intros Hw Hm Hc Hn buf index. subst buf index. split.
  - unfold memcpy_event. rewrite Nat2Z.id.
    rewrite <- (Nat.add_0_r (List.length before)), skipn_behind.
    unfold record_bytes, uint32_bytes. simpl.
    unfold le_int32. rewrite !le_uint32_byte_of_Z.
    f_equal. f_equal.
    + unfold int_of_uint32.
      change (2 ^ 31) with 2147483648 in *. change (2 ^ 32) with 4294967296.
      destruct (Z.ltb_spec (w mod 4294967296) 2147483648);
        Z.div_mod_to_equations; lia.
    + apply Z.mod_small. exact Hm.
    + apply Z.mod_small. exact Hc.
    + apply Z.mod_small. lia.
  - unfold name_field_at, iEventSize.
    replace (Z.to_nat (Z.of_nat (List.length before) + 16))
      with (List.length before + 16)%nat by lia.
    rewrite skipn_behind, Nat2Z.id.
    unfold record_bytes, uint32_bytes. simpl.
    rewrite firstn_app, Nat.sub_diag, firstn_all. simpl.
    apply app_nil_r.
Qed.

Lemma memcpy_event_reads_the_kernel_layout_witness :
  memcpy_event create_delete_modify 32 = Some (mkEvent 1 IN_DELETE 0 16) /\
  name_field_at create_delete_modify 32 16 = f_txt_field /\
  memcpy_event queue_overflow_record 0 = Some (mkEvent (-1) IN_Q_OVERFLOW 0 0).
Proof.
  pose proof (memcpy_event_reads_the_kernel_layout
                (record_bytes 1 IN_CREATE 0 f_txt_field)
                (record_bytes 2 IN_MODIFY 0 []) f_txt_field 1 IN_DELETE 0
                ltac:(evaluate_range) ltac:(evaluate_range)
                ltac:(evaluate_range) ltac:(evaluate)) as [A B].
  pose proof (memcpy_event_reads_the_kernel_layout [] [] [] (-1) IN_Q_OVERFLOW 0
                ltac:(evaluate_range) ltac:(evaluate_range)
                ltac:(evaluate_range) ltac:(evaluate)) as [C _].
  split; [exact A|]. split; [exact B|exact C].
Defined.
